(** * perplexity-finance-bot: the record parser, the dataset writer and the
      run orchestrator of [src/index.js], embedded in Rocq.

    The JavaScript built-ins the program calls (regular expressions,
    [String.prototype] methods, [parseFloat]) are modelled first, following
    ECMA-262; the methods of [PerplexityBot] follow, each under the name it
    has in the source. *)

From Stdlib Require Import String Ascii List NArith ZArith Bool Arith Lia.
Import ListNotations.

Set Implicit Arguments.

(** ** JavaScript strings: sequences of UTF-16 code units *)

Module JS.

Definition cu := N.
Definition str := list cu.

(** An ASCII literal of the source as a JavaScript string. *)
Definition lit (s : string) : str := map N_of_ascii (list_ascii_of_string s).

Definition str_eqb (a b : str) : bool :=
  if list_eq_dec N.eq_dec a b then true else false.

Definition between (lo hi c : N) : bool := ((lo <=? c) && (c <=? hi))%N.

Definition is_upper (c : cu) : bool := between 65 90 c.
Definition is_lower (c : cu) : bool := between 97 122 c.
Definition is_digit (c : cu) : bool := between 48 57 c.

(** [\w]: the characters that count as "word" characters for [\b]. *)
Definition is_word (c : cu) : bool :=
  is_upper c || is_lower c || is_digit c || (c =? 95)%N.

(** WhiteSpace and LineTerminator of ECMA-262: what [\s] matches and what
    [trim] removes. *)
Definition is_space (c : cu) : bool :=
  between 9 13 c || (c =? 32)%N || (c =? 160)%N || (c =? 5760)%N
  || between 8192 8202 c || (c =? 8232)%N || (c =? 8233)%N
  || (c =? 8239)%N || (c =? 8287)%N || (c =? 12288)%N || (c =? 65279)%N.

(** LineTerminator: what [.] refuses. *)
Definition is_line_terminator (c : cu) : bool :=
  (c =? 10)%N || (c =? 13)%N || (c =? 8232)%N || (c =? 8233)%N.

Fixpoint trimStart (s : str) : str :=
  match s with
  | c :: tl => if is_space c then trimStart tl else s
  | [] => []
  end.

Definition trimEnd (s : str) : str := rev (trimStart (rev s)).

Definition trim (s : str) : str := trimEnd (trimStart s).

(** [s.substring(0, n)]. *)
Definition substring0 (n : nat) (s : str) : str := firstn n s.

Fixpoint startsWith (p s : str) : bool :=
  match p, s with
  | [], _ => true
  | a :: p', b :: s' => (a =? b)%N && startsWith p' s'
  | _ :: _, [] => false
  end.

(** [s.includes(p)]. *)
Fixpoint includes (p s : str) : bool :=
  startsWith p s ||
  match s with
  | [] => false
  | _ :: tl => includes p tl
  end.

(** How many times [p] occurs in [s]. *)
Fixpoint occurrences (p s : str) : nat :=
  (if startsWith p s then 1 else 0) +
  match s with
  | [] => 0
  | _ :: tl => occurrences p tl
  end.

(** [s.split('\n')]: the pieces between line feeds; the empty string gives
    one empty piece. *)
Fixpoint split_nl (s : str) : list str :=
  match s with
  | [] => [[]]
  | c :: tl =>
      if (c =? 10)%N then [] :: split_nl tl
      else match split_nl tl with
           | l :: ls => (c :: l) :: ls
           | [] => [[c]]
           end
  end.

End JS.

(** ** Regular expressions: a backtracking matcher after ECMA-262 22.2.2 *)

Module RegExp.
Import JS.

(** Members of a character class. *)
Inductive citem :=
| CRange (lo hi : N)
| CSpace.

(** A character class [[...]] or [[^...]]; [.] and [\s] and single
    characters are classes too. *)
Record cset := { neg : bool; items : list citem }.

(** The pattern syntax the source uses.  Every quantifier of the source is
    applied to a single character class, so [Rep] takes a class. *)
Inductive regex :=
| Chr (c : cset)
| Rep (c : cset) (lo : nat) (hi : option nat)
| Seq (r1 r2 : regex)
| Group (n : nat) (r : regex)
| Look (r : regex)
| WordB
| Bos
| Eps.

Definition cat (rs : list regex) : regex := fold_right Seq Eps rs.

Definition one (a : ascii) : cset :=
  {| neg := false; items := [CRange (N_of_ascii a) (N_of_ascii a)] |}.
Definition no (a : ascii) : cset :=
  {| neg := true; items := [CRange (N_of_ascii a) (N_of_ascii a)] |}.
Definition AZ : cset := {| neg := false; items := [CRange 65 90] |}.
Definition notAZ : cset := {| neg := true; items := [CRange 65 90] |}.
Definition digit : cset := {| neg := false; items := [CRange 48 57] |}.
Definition digit_dot : cset :=
  {| neg := false; items := [CRange 48 57; CRange 46 46] |}.
Definition space : cset := {| neg := false; items := [CSpace] |}.
Definition dot : cset :=
  {| neg := true;
     items := [CRange 10 10; CRange 13 13; CRange 8232 8233] |}.

(** A literal word of a pattern, character by character. *)
Definition word (s : string) : regex :=
  cat (map (fun a => Chr (one a)) (list_ascii_of_string s)).

Definition in_item (c : cu) (i : citem) : bool :=
  match i with
  | CRange lo hi => between lo hi c
  | CSpace => is_space c
  end.

Definition to_upper (c : cu) : cu := if is_lower c then (c - 32)%N else c.
Definition to_lower (c : cu) : cu := if is_upper c then (c + 32)%N else c.

(** CharacterSetMatcher: with the [i] flag a character is in the class when
    some member has the same canonical (upper-case) form.  The classes of this
    program hold ASCII characters, white space and line terminators only, for
    which Canonicalize is ASCII upper-casing. *)
Definition cmatch (icase : bool) (cs : cset) (c : cu) : bool :=
  let found :=
    if icase
    then existsb (in_item (to_upper c)) (items cs)
         || existsb (in_item (to_lower c)) (items cs)
    else existsb (in_item c) (items cs) in
  if neg cs then negb found else found.

(** The matcher state: the index reached, the character before it, the input
    from there on, and the captures made so far (latest first). *)
Record mstate := {
  pos : nat;
  prev : option cu;
  rest : str;
  caps : list (nat * str)
}.

Definition continuation := mstate -> option mstate.

(** RepeatMatcher for a greedy quantifier over a character class: take one
    more character while allowed and let the continuation decide; when it
    fails, give the character back. *)
Fixpoint repeat_matcher (icase : bool) (cs : cset) (rst : str)
    (lo : nat) (hi : option nat) (p : nat) (pv : option cu)
    (cp : list (nat * str)) (k : continuation) : option mstate :=
  let here := {| pos := p; prev := pv; rest := rst; caps := cp |} in
  match hi with
  | Some 0 => k here
  | _ =>
      match rst with
      | x :: tl =>
          if cmatch icase cs x then
            match repeat_matcher icase cs tl (Nat.pred lo)
                    (option_map Nat.pred hi) (S p) (Some x) cp k with
            | Some r => Some r
            | None => match lo with 0 => k here | S _ => None end
            end
          else match lo with 0 => k here | S _ => None end
      | [] => match lo with 0 => k here | S _ => None end
      end
  end.

Definition opt_word (o : option cu) : bool :=
  match o with Some c => is_word c | None => false end.

(** The matcher of a pattern, as ECMA-262 compiles it: [k] is the
    continuation, what remains to be matched after [r]; backtracking is
    trying the continuation again from another state. *)
Fixpoint m (icase : bool) (r : regex) (st : mstate) (k : continuation)
    : option mstate :=
  match r with
  | Chr cs =>
      match rest st with
      | x :: tl =>
          if cmatch icase cs x
          then k {| pos := S (pos st); prev := Some x; rest := tl;
                    caps := caps st |}
          else None
      | [] => None
      end
  | Rep cs lo hi =>
      repeat_matcher icase cs (rest st) lo hi (pos st) (prev st) (caps st) k
  | Seq r1 r2 => m icase r1 st (fun st1 => m icase r2 st1 k)
  | Group n r1 =>
      m icase r1 st (fun st1 =>
        k {| pos := pos st1; prev := prev st1; rest := rest st1;
             caps := (n, firstn (pos st1 - pos st) (rest st)) :: caps st1 |})
  | Look r1 =>
      match m icase r1 st (fun st1 => Some st1) with
      | Some st1 =>
          k {| pos := pos st; prev := prev st; rest := rest st;
               caps := caps st1 |}
      | None => None
      end
  | WordB =>
      if xorb (opt_word (prev st)) (opt_word (hd_error (rest st)))
      then k st else None
  | Bos => match pos st with 0 => k st | S _ => None end
  | Eps => k st
  end.

(** A RegExp object: its source text, the pattern the text denotes and the
    [i] flag.  ([lastIndex] is threaded by the callers.) *)
Record RegExp := {
  source : string;
  pattern : regex;
  ignoreCase : bool
}.

(** The result array of a match: [index], the index after the match (the
    new [lastIndex]) and the capture groups. *)
Record MatchResult := {
  index : nat;
  lastIndex : nat;
  captures : list (nat * str)
}.

(** [match[n]]: [None] is [undefined]. *)
Fixpoint lookup (n : nat) (cp : list (nat * str)) : option str :=
  match cp with
  | [] => None
  | (j, s) :: tl => if Nat.eqb j n then Some s else lookup n tl
  end.

Definition group (n : nat) (mr : MatchResult) : option str :=
  lookup n (captures mr).

(** RegExpBuiltinExec, the search: try the start indices from [p] upwards. *)
Fixpoint search (re : RegExp) (rst : str) (p : nat) (pv : option cu)
    : option MatchResult :=
  match m (ignoreCase re) (pattern re)
          {| pos := p; prev := pv; rest := rst; caps := [] |}
          (fun st => Some st) with
  | Some st =>
      Some {| index := p; lastIndex := pos st; captures := caps st |}
  | None =>
      match rst with
      | [] => None
      | x :: tl => search re tl (S p) (Some x)
      end
  end.

Definition char_before (s : str) (i : nat) : option cu :=
  match i with 0 => None | S j => nth_error s j end.

(** [re.exec(s)] of a global RegExp whose [lastIndex] is [i]. *)
Definition exec (re : RegExp) (s : str) (i : nat) : option MatchResult :=
  if length s <? i then None
  else search re (skipn i s) i (char_before s i).

(** [s.match(re)] for a RegExp without the [g] flag: the first match. *)
Definition match_ (re : RegExp) (s : str) : option MatchResult :=
  exec re s 0.

(** The length of the match that starts exactly at this state, if any. *)
Definition match_here (re : RegExp) (rst : str) (p : nat) (pv : option cu)
    : option nat :=
  match m (ignoreCase re) (pattern re)
          {| pos := p; prev := pv; rest := rst; caps := [] |}
          (fun st => Some st) with
  | Some st => Some (pos st - p)
  | None => None
  end.

(** [s.replace(re, '')] for a RegExp with the [g] flag: every match, found
    from left to right, is deleted; after an empty match the search moves on
    by one character.  [skip] counts the characters of the current match that
    remain to be dropped. *)
Fixpoint delete_matches (re : RegExp) (rst : str) (p : nat)
    (pv : option cu) (skip : nat) : str :=
  match rst with
  | [] => []
  | x :: tl =>
      match skip with
      | S j => delete_matches re tl (S p) (Some x) j
      | 0 =>
          match match_here re rst p pv with
          | Some (S j) => delete_matches re tl (S p) (Some x) j
          | _ => x :: delete_matches re tl (S p) (Some x) 0
          end
      end
  end.

Definition replace_all (re : RegExp) (s : str) : str :=
  delete_matches re s 0 None 0.

(** [s.replace(re, '')] for a RegExp without the [g] flag: the first match
    is deleted. *)
Definition replace_first (re : RegExp) (s : str) : str :=
  match match_ re s with
  | Some mr => firstn (index mr) s ++ skipn (lastIndex mr) s
  | None => s
  end.

(** The least number of characters a match of the pattern takes. *)
Fixpoint minlen (r : regex) : nat :=
  match r with
  | Chr _ => 1
  | Rep _ lo hi => match hi with Some h => Nat.min lo h | None => lo end
  | Seq r1 r2 => minlen r1 + minlen r2
  | Group _ r1 => minlen r1
  | Look _ | WordB | Bos | Eps => 0
  end.

(** The numbers of the capturing groups of a pattern. *)
Fixpoint groups (r : regex) : list nat :=
  match r with
  | Group n r1 => n :: groups r1
  | Seq r1 r2 => groups r1 ++ groups r2
  | Look r1 => groups r1
  | _ => []
  end.

End RegExp.

(** ** Numbers: [parseFloat] and the comparison of Number values *)

Module Number.
Import JS.
Local Open Scope Z_scope.

(** A Number value: not-a-number, an infinity, or the finite double
    [z * 2^e]. *)
Inductive number :=
| NaN
| Inf (negative : bool)
| Dbl (z e : Z).

(** Division rounded to the nearest integer, ties to the even one. *)
Definition div_nearest_even (n d : Z) : Z :=
  let q := n / d in
  let r := n mod d in
  match 2 * r ?= d with
  | Lt => q
  | Gt => q + 1
  | Eq => if Z.even q then q else q + 1
  end.

(** The double nearest to [n / d], for [0 <= n] and [0 < d]: binary64 keeps
    53 significant bits, no bit below [2^-1074], and overflows to infinity
    from [2^1024] on. *)
Definition to_double (n d : Z) : number :=
  if n =? 0 then Dbl 0 0
  else
    let e0 := Z.log2 n - Z.log2 d in
    let below :=
      if 0 <=? e0 then n <? d * 2 ^ e0 else n * 2 ^ (- e0) <? d in
    let e := if below then e0 - 1 else e0 in
    let p := Z.max (e - 52) (-1074) in
    let z :=
      if 0 <=? p then div_nearest_even n (d * 2 ^ p)
      else div_nearest_even (n * 2 ^ (- p)) d in
    if (0 <=? p) && (2 ^ 1024 <=? z * 2 ^ p) then Inf false else Dbl z p.

Definition negate (x : number) : number :=
  match x with
  | NaN => NaN
  | Inf b => Inf (negb b)
  | Dbl z e => Dbl (- z) e
  end.

(** [x <= y] on Number values. *)
Definition le (x y : number) : bool :=
  match x, y with
  | NaN, _ | _, NaN => false
  | Inf true, _ => true
  | _, Inf false => true
  | Inf false, _ => false
  | _, Inf true => false
  | Dbl a ea, Dbl b eb =>
      let e := Z.min ea eb in
      a * 2 ^ (ea - e) <=? b * 2 ^ (eb - e)
  end.

(** The literal [2.0]. *)
Definition two : number := Dbl 1 1.

(** The decimal digits at the head of a string: their value, how many there
    are, and what follows them. *)
Fixpoint digits (s : str) (acc : Z) (cnt : nat) : Z * nat * str :=
  match s with
  | c :: tl =>
      if is_digit c then digits tl (10 * acc + (Z.of_N c - 48)) (S cnt)
      else (acc, cnt, s)
  | [] => (acc, cnt, [])
  end.

(** An ExponentPart at the head of a string, when there is one. *)
Definition exponent (s : str) : Z :=
  match s with
  | c :: tl =>
      if ((c =? 101) || (c =? 69))%N then
        let '(sgn, tl') :=
          match tl with
          | d :: tl2 =>
              if (d =? 45)%N then (-1, tl2)
              else if (d =? 43)%N then (1, tl2) else (1, tl)
          | [] => (1, tl)
          end in
        let '(v, cnt, _) := digits tl' 0 0 in
        match cnt with O => 0 | S _ => sgn * v end
      else 0
  | [] => 0
  end.

(** The longest prefix that is a StrUnsignedDecimalLiteral, as a Number. *)
Definition unsigned_literal (s : str) : number :=
  if startsWith (lit "Infinity") s then Inf false
  else
    let '(ip, ni, r1) := digits s 0 0 in
    let '(fp, nf, r2) :=
      match r1 with
      | c :: tl => if (c =? 46)%N then digits tl 0 0 else (0, O, r1)
      | [] => (0, O, r1)
      end in
    match ni, nf with
    | O, O => NaN
    | _, _ =>
        let mant := ip * 10 ^ Z.of_nat nf + fp in
        let scale := exponent r2 - Z.of_nat nf in
        if 0 <=? scale then to_double (mant * 10 ^ scale) 1
        else to_double mant (10 ^ (- scale))
    end.

(** [parseFloat(s)]. *)
Definition parseFloat (s : str) : number :=
  match trimStart s with
  | c :: tl =>
      if (c =? 45)%N then negate (unsigned_literal tl)
      else if (c =? 43)%N then unsigned_literal tl
      else unsigned_literal (c :: tl)
  | [] => NaN
  end.

End Number.

(** ** The record parser: [PerplexityBot.parseStockData] *)

Module Parser.
Import JS RegExp.

Record StockRecord := {
  ticker : str;
  company : str;
  marketCap : str;
  extractedAt : str
}.

(** The four [patterns] of [parseStockData], all with the flags [gi]. *)
Definition pattern1 : RegExp :=
  {| source := "([A-Z]{1,5})\s*\(([^)]+)\)[^$]*\$([0-9.]+)\s*billion";
     pattern :=
       cat [Group 1 (Rep AZ 1 (Some 5)); Rep space 0 None; Chr (one "(");
            Group 2 (Rep (no ")") 1 None); Chr (one ")");
            Rep (no "$") 0 None; Chr (one "$");
            Group 3 (Rep digit_dot 1 None); Rep space 0 None;
            word "billion"];
     ignoreCase := true |}.

Definition pattern2 : RegExp :=
  {| source := "([^(]+)\s*\(([A-Z]{1,5})\)[^$]*\$([0-9.]+)\s*billion";
     pattern :=
       cat [Group 1 (Rep (no "(") 1 None); Rep space 0 None; Chr (one "(");
            Group 2 (Rep AZ 1 (Some 5)); Chr (one ")");
            Rep (no "$") 0 None; Chr (one "$");
            Group 3 (Rep digit_dot 1 None); Rep space 0 None;
            word "billion"];
     ignoreCase := true |}.

Definition pattern3 : RegExp :=
  {| source := "([A-Z]{1,5}):\s*([^-]+)\s*-[^$]*\$([0-9.]+)\s*billion";
     pattern :=
       cat [Group 1 (Rep AZ 1 (Some 5)); Chr (one ":"); Rep space 0 None;
            Group 2 (Rep (no "-") 1 None); Rep space 0 None; Chr (one "-");
            Rep (no "$") 0 None; Chr (one "$");
            Group 3 (Rep digit_dot 1 None); Rep space 0 None;
            word "billion"];
     ignoreCase := true |}.

Definition pattern4 : RegExp :=
  {| source := "(?=.*([A-Z]{2,5}))(?=.*\$([0-9.]+)\s*billion)(.+)";
     pattern :=
       cat [Look (cat [Rep dot 0 None; Group 1 (Rep AZ 2 (Some 5))]);
            Look (cat [Rep dot 0 None; Chr (one "$");
                       Group 2 (Rep digit_dot 1 None); Rep space 0 None;
                       word "billion"]);
            Group 3 (Rep dot 1 None)];
     ignoreCase := true |}.

Definition patterns : list RegExp := [pattern1; pattern2; pattern3; pattern4].

(** [/\b([A-Z]{2,5})\b/] *)
Definition tickerRe : RegExp :=
  {| source := "\b([A-Z]{2,5})\b";
     pattern := cat [WordB; Group 1 (Rep AZ 2 (Some 5)); WordB];
     ignoreCase := false |}.

(** [/\$([0-9.]+)\s*billion/], and the same with the flag [i]. *)
Definition capRe (icase : bool) : RegExp :=
  {| source := "\$([0-9.]+)\s*billion";
     pattern :=
       cat [Chr (one "$"); Group 1 (Rep digit_dot 1 None); Rep space 0 None;
            word "billion"];
     ignoreCase := icase |}.

(** [/\([^)]*\)/g] *)
Definition parenRe : RegExp :=
  {| source := "\([^)]*\)";
     pattern := cat [Chr (one "("); Rep (no ")") 0 None; Chr (one ")")];
     ignoreCase := false |}.

(** [/\$[0-9.]+\s*billion/g] *)
Definition capTextRe : RegExp :=
  {| source := "\$[0-9.]+\s*billion";
     pattern :=
       cat [Chr (one "$"); Rep digit_dot 1 None; Rep space 0 None;
            word "billion"];
     ignoreCase := false |}.

(** [/[^A-Z]/g] *)
Definition nonLetterRe : RegExp :=
  {| source := "[^A-Z]"; pattern := Chr notAZ; ignoreCase := false |}.

(** [/^\d+\.\s*/] *)
Definition enumRe : RegExp :=
  {| source := "^\d+\.\s*";
     pattern := cat [Bos; Rep digit 1 None; Chr (one "."); Rep space 0 None];
     ignoreCase := false |}.

(** A string is truthy when it is defined and not empty. *)
Definition truthy (o : option str) : bool :=
  match o with
  | Some (_ :: _) => true
  | _ => false
  end.

(** The candidate [ticker], [company] and [marketCap] of one match (lines
    102-118): [None] is [undefined].  Group 3 of the fourth pattern takes
    part in every match of it, so [line] is never [undefined]. *)
Definition candidate (pat : RegExp) (mt : MatchResult)
    : option str * option str * option str :=
  if includes (lit "(?=.*") (lit (source pat)) then
    match group 3 mt with
    | Some line =>
        let tickerMatch := match_ tickerRe line in
        let capMatch := match_ (capRe false) line in
        match tickerMatch, capMatch with
        | Some tm, Some cm =>
            (group 1 tm,
             Some (trim (replace_all capTextRe (replace_all parenRe line))),
             group 1 cm)
        | _, _ => (None, None, None)
        end
    | None => (None, None, None)
    end
  else
    (option_map trim (group 1 mt),
     option_map trim (group 2 mt),
     option_map trim (group 3 mt)).

Section WithClock.

(** [new Date().toISOString()]: the clock is read once for every record
    pushed; [now n] is what it gives when [n] records were pushed before. *)
Variable now : nat -> str.

(** [stocks.find(s => s.ticker === ticker)] *)
Definition find_ticker (t : str) (stocks : list StockRecord)
    : option StockRecord :=
  find (fun s => str_eqb (ticker s) t) stocks.

(** Lines 120-132: the small-cap filter, the normalisation and the push. *)
Definition accept (cand : option str * option str * option str)
    (stocks : list StockRecord) : list StockRecord :=
  match cand with
  | (Some ticker0, Some company0, Some marketCap0) =>
      if truthy (Some ticker0) && truthy (Some company0)
         && truthy (Some marketCap0)
         && Number.le (Number.parseFloat marketCap0) Number.two
      then
        let ticker1 := replace_all nonLetterRe ticker0 in
        let company1 := trim (replace_first enumRe company0) in
        match find_ticker ticker1 stocks with
        | Some _ => stocks
        | None =>
            stocks ++
            [{| ticker := ticker1;
                company := substring0 50 company1;
                marketCap := lit "$" ++ marketCap0 ++ lit "B";
                extractedAt := now (length stocks) |}]
        end
      else stocks
  | _ => stocks
  end.

(** The [while] loop of lines 101-133 for one pattern, whose [lastIndex] is
    [i].  [exec] runs before the length test, as in the source.  [fuel]
    bounds the number of iterations; [None] stands for a loop that did not
    end within it. *)
Fixpoint while_exec (fuel : nat) (pat : RegExp) (responseText : str)
    (i : nat) (stocks : list StockRecord) : option (list StockRecord) :=
  match fuel with
  | O => None
  | S fuel' =>
      match exec pat responseText i with
      | None => Some stocks
      | Some mt =>
          if length stocks <? 15
          then while_exec fuel' pat responseText (lastIndex mt)
                 (accept (candidate pat mt) stocks)
          else Some stocks
      end
  end.

(** The [for] loop of lines 99-134 over the patterns. *)
Fixpoint for_patterns (pats : list RegExp) (responseText : str)
    (stocks : list StockRecord) : option (list StockRecord) :=
  match pats with
  | [] => Some stocks
  | pat :: more =>
      match while_exec (S (length responseText)) pat responseText 0 stocks with
      | Some stocks' => for_patterns more responseText stocks'
      | None => None
      end
  end.

(** Lines 143-158: one line of the fallback. *)
Definition fallback_line (line : str) (stocks : list StockRecord)
    : list StockRecord :=
  let tickerMatch := match_ tickerRe line in
  let capMatch := match_ (capRe true) line in
  match tickerMatch, capMatch with
  | Some tm, Some cm =>
      match group 1 tm, group 1 cm with
      | Some ticker0, Some marketCap0 =>
          if Number.le (Number.parseFloat marketCap0) Number.two then
            match find_ticker ticker0 stocks with
            | Some _ => stocks
            | None =>
                stocks ++
                [{| ticker := ticker0;
                    company := lit "Company for " ++ ticker0;
                    marketCap := lit "$" ++ marketCap0 ++ lit "B";
                    extractedAt := now (length stocks) |}]
            end
          else stocks
      | _, _ => stocks
      end
  | _, _ => stocks
  end.

(** The [for] loop of lines 140-159, with its [break]. *)
Fixpoint fallback (lines : list str) (stocks : list StockRecord)
    : list StockRecord :=
  match lines with
  | [] => stocks
  | line :: more =>
      if 10 <=? length stocks then stocks
      else fallback more (fallback_line line stocks)
  end.

(** What the pattern loops accept, before the fallback. *)
Definition strategy_pass (responseText : str) : option (list StockRecord) :=
  for_patterns patterns responseText [].

Definition parseStockData (responseText : str)
    : option (list StockRecord) :=
  match strategy_pass responseText with
  | Some stocks =>
      if length stocks <? 5
      then Some (fallback (split_nl responseText) stocks)
      else Some stocks
  | None => None
  end.

End WithClock.

End Parser.

(** ** The [csv-writer] package, as far as [saveToCSV] uses it

    [createObjectCsvWriter({path, header, append})] and [writeRecords], after
    the package's documentation: with [append: false] the file is written anew
    and starts with the header line; with [append: true] the records are added
    to the end of the file, which is created when it is missing, and no header
    line is written. *)

Module CsvWriter.
Import JS Parser.

(** The file at [path]: [None] when it does not exist. *)
Definition file := option str.

Definition comma : cu := 44%N.
Definition quote : cu := 34%N.
Definition newline : cu := 10%N.

Definition needsQuote (s : str) : bool :=
  existsb (fun c => (c =? comma) || (c =? 13) || (c =? newline)
                    || (c =? quote))%N s.

Definition quoteField (s : str) : str :=
  quote :: flat_map (fun c => if (c =? quote)%N then [quote; quote] else [c]) s
  ++ [quote].

Definition stringifyField (s : str) : str :=
  if needsQuote s then quoteField s else s.

Fixpoint join (sep : cu) (fields : list str) : str :=
  match fields with
  | [] => []
  | [f] => f
  | f :: more => f ++ sep :: join sep more
  end.

Definition csvLine (fields : list str) : str :=
  join comma (map stringifyField fields) ++ [newline].

(** The [header] option of [saveToCSV]: field ids and column titles. *)
Definition header : list (StockRecord -> str) * list str :=
  ([ticker; company; marketCap; extractedAt],
   [lit "Ticker"; lit "Company Name"; lit "Market Cap"; lit "Extracted At"]).

Definition headerString : str := csvLine (snd header).

Definition stringifyRecords (records : list StockRecord) : str :=
  flat_map (fun r => csvLine (map (fun field => field r) (fst header)))
    records.

(** [writeRecords]: what the file holds afterwards. *)
Definition writeRecords (append : bool) (records : list StockRecord)
    (f : file) : file :=
  if append
  then Some (match f with Some old => old | None => [] end
             ++ stringifyRecords records)
  else Some (headerString ++ stringifyRecords records).

End CsvWriter.

(** ** The orchestrator: [PerplexityBot] and its [runQuery] *)

Module Bot.
Import JS Parser.

Definition Error := str.

(** The fields of [PerplexityBot] a run reads and writes, and the outside
    world a run acts on.  A browser is named by the number of the
    [puppeteer.launch] call that made it. *)
Record State := {
  browser : option nat;
  page : option nat;
  launches : nat;
  closed : list nat;
  csvFile : CsvWriter.file
}.

(** What the outside world answers during one run: for every awaited call,
    the error it rejects with ([None]: it resolves), the text the page
    evaluation returns, and the clock. *)
Record Env := {
  launch : option Error;
  newPage : option Error;
  setUserAgent : option Error;
  goto : option Error;
  waitForSelector : option Error;
  type : option Error;
  press : option Error;
  waitForTimeout : option Error;
  evaluate : Error + str;
  writeFile : option Error;
  now : nat -> str
}.

Record RunResult := {
  success : bool;
  stockCount : option nat;
  stocks : option (list StockRecord);
  error : option str
}.

(** An async method: it returns or throws, in a new state; [None] stands
    for a method that never settles. *)
Definition M (A : Type) : Type := State -> option ((A + Error) * State).

Definition ret {A} (a : A) : M A := fun st => Some (inl a, st).
Definition throw {A} (e : Error) : M A := fun st => Some (inr e, st).
Definition bind {A B} (c : M A) (f : A -> M B) : M B :=
  fun st =>
    match c st with
    | Some (inl a, st') => f a st'
    | Some (inr e, st') => Some (inr e, st')
    | None => None
    end.
Definition try_catch {A} (c : M A) (handler : Error -> M A) : M A :=
  fun st =>
    match c st with
    | Some (inr e, st') => handler e st'
    | other => other
    end.
Definition get : M State := fun st => Some (inl st, st).
Definition put (st : State) : M unit := fun _ => Some (inl tt, st).

Notation "x <- c ;; k" := (bind c (fun x => k))
  (at level 61, c at next level, right associativity).
Notation "c ;;; k" := (bind c (fun _ => k))
  (at level 61, right associativity).

(** An awaited call of the browser automation: it resolves or rejects. *)
Definition await (outcome : option Error) : M unit :=
  match outcome with
  | None => ret tt
  | Some e => throw e
  end.

Definition set_browser (b : option nat) : M unit :=
  fun st => Some (inl tt,
    {| browser := b; page := page st; launches := launches st;
       closed := closed st; csvFile := csvFile st |}).

Definition set_page (p : option nat) : M unit :=
  fun st => Some (inl tt,
    {| browser := browser st; page := p; launches := launches st;
       closed := closed st; csvFile := csvFile st |}).

(** [puppeteer.launch(...)]: the call is counted whether it resolves or
    not. *)
Definition puppeteer_launch (env : Env) : M nat :=
  fun st =>
    let st' := {| browser := browser st; page := page st;
                  launches := S (launches st); closed := closed st;
                  csvFile := csvFile st |} in
    match launch env with
    | None => Some (inl (launches st), st')
    | Some e => Some (inr e, st')
    end.

(** [browser.close()], which is taken to resolve. *)
Definition browser_close (b : nat) : M unit :=
  fun st => Some (inl tt,
    {| browser := browser st; page := page st; launches := launches st;
       closed := b :: closed st; csvFile := csvFile st |}).

Definition initBrowser (env : Env) : M unit :=
  b <- puppeteer_launch env ;;
  set_browser (Some b) ;;;
  await (newPage env) ;;;
  set_page (Some b) ;;;
  await (setUserAgent env).

Definition queryPerplexity (env : Env) : M str :=
  try_catch
    (await (goto env) ;;;
     await (waitForSelector env) ;;;
     await (type env) ;;;
     await (press env) ;;;
     await (waitForTimeout env) ;;;
     match evaluate env with
     | inl e => throw e
     | inr responseText => ret responseText
     end)
    (fun error => throw error).

(** [saveToCSV]: the writer is created with [append: true]. *)
Definition saveToCSV (env : Env) (stocks : list StockRecord) : M unit :=
  await (writeFile env) ;;;
  fun st => Some (inl tt,
    {| browser := browser st; page := page st; launches := launches st;
       closed := closed st;
       csvFile := CsvWriter.writeRecords true stocks (csvFile st) |}).

(** [parseStockData] inside a run. *)
Definition parse (env : Env) (responseText : str) : M (list StockRecord) :=
  fun st =>
    match parseStockData (now env) responseText with
    | Some stocks => Some (inl stocks, st)
    | None => None
    end.

(** Lines 188-190: [if (!this.browser) await this.initBrowser()]. *)
Definition ensureSession (env : Env) : M unit :=
  st <- get ;;
  match browser st with
  | None => initBrowser env
  | Some _ => ret tt
  end.

(** [{ success: false, error: message }] *)
Definition failure (message : str) : RunResult :=
  {| success := false; stockCount := None; stocks := None;
     error := Some message |}.

(** [runQuery].  [responseText] is a string, so [!responseText] holds of
    the empty string only, which the length test covers. *)
Definition runQuery (env : Env) : M RunResult :=
  try_catch
    (ensureSession env ;;;
     responseText <- queryPerplexity env ;;
     (if length responseText <? 100
      then throw (lit "Response too short or empty")
      else ret tt) ;;;
     stocks <- parse env responseText ;;
     if 0 <? length stocks then
       saveToCSV env stocks ;;;
       ret {| success := true; stockCount := Some (length stocks);
              stocks := Some stocks; error := None |}
     else ret (failure (lit "No stocks extracted")))
    (fun error =>
       st <- get ;;
       match browser st with
       | Some b => browser_close b ;;; set_browser None
       | None => ret tt
       end ;;;
       ret (failure error)).



(** The bot as its constructor leaves it, before the data file exists. *)
Definition constructor : State :=
  {| browser := None; page := None; launches := 0; closed := [];
     csvFile := None |}.

(** A browser handle comes from a launch that has happened. *)
Definition handle_known (st : State) : Prop :=
  match browser st with
  | Some b => b < launches st
  | None => True
  end.

End Bot.

(** ** Sample inputs for the examples below *)

Module Samples.
Import JS Parser Bot.

Definition clock (n : nat) : str := lit "2024-01-01T00:00:00.000Z".

(** An answer of more than 100 characters that names one stock. *)
Definition answer : str :=
  lit "Recent finance articles discuss this small-cap stock with positive sentiment among analysts: XYZ (Example Corp) ... $1.5 billion".

Definition env_ok : Env :=
  {| launch := None; newPage := None; setUserAgent := None; goto := None;
     waitForSelector := None; type := None; press := None;
     waitForTimeout := None; evaluate := inr answer; writeFile := None;
     now := clock |}.



(** A bot that holds the browser of its first launch. *)
Definition st_live : State :=
  {| browser := Some 0; page := Some 0; launches := 1; closed := [];
     csvFile := None |}.

End Samples.

(** ** The shapes the claims speak of *)

Module Shapes.
Import JS RegExp Parser.

(** The market cap of a record reads [$<value>B] with a value that
    [parseFloat] puts at 2.0 or below. *)
Definition small_cap (r : StockRecord) : Prop :=
  exists value,
    marketCap r = lit "$" ++ value ++ lit "B" /\
    Number.le (Number.parseFloat value) Number.two = true.

(** The ticker of a record holds capital letters only. *)
Definition capital_letters (r : StockRecord) : Prop :=
  Forall (fun c => is_upper c = true) (ticker r).

Definition is_digit_dot (c : cu) : bool := is_digit c || (c =? 46)%N.

(** The longest prefix whose characters satisfy [f], and what follows it. *)
Fixpoint span (f : cu -> bool) (s : str) : str * str :=
  match s with
  | c :: tl =>
      if f c then let (a, b) := span f tl in (c :: a, b) else ([], s)
  | [] => ([], [])
  end.

(** The word "billion", in any case, starts the string. *)
Definition billion_ahead (s : str) : bool :=
  str_eqb (map to_lower (firstn 7 s)) (lit "billion").

(** The value [v] of a "$<v> billion" whose "$" stands just before [s]. *)
Definition cap_here (s : str) : option str :=
  let (v, r1) := span is_digit_dot s in
  let (_, r2) := span is_space r1 in
  match v with
  | [] => None
  | _ :: _ => if billion_ahead r2 then Some v else None
  end.

(** The values of all the "$<v> billion" of a text. *)
Fixpoint cap_values (s : str) : list str :=
  match s with
  | [] => []
  | c :: tl =>
      (if (c =? 36)%N
       then match cap_here tl with Some v => [v] | None => [] end
       else [])
      ++ cap_values tl
  end.

(** No "$<v> billion" of the text has a value that [parseFloat] puts at
    2.0 or below. *)
Definition no_small_cap (text : str) : bool :=
  forallb (fun v => negb (Number.le (Number.parseFloat v) Number.two))
    (cap_values text).

(** [tl] starts with the value [v] of a cap: digits and dots, then white
    space, then the word "billion" in any case. *)
Definition cap_shape (tl v : str) : Prop :=
  exists ws b r,
    tl = v ++ ws ++ b ++ r /\
    v <> [] /\
    Forall (fun c => is_digit_dot c = true) v /\
    Forall (fun c => is_space c = true) ws /\
    length b = 7 /\
    map to_lower b = lit "billion".






End Shapes.

(** ** The page evaluation of [queryPerplexity] (lines 58-77) *)

Module Page.
Import JS.

(** The rendered document, as far as the extraction reads it: for a
    selector, the [textContent] of the elements [querySelectorAll] finds, in
    document order. *)
Definition Document := string -> list str.

Definition dq : string := String (ascii_of_nat 34) EmptyString.

(** The [selectors] of the callback, in their order. *)
Definition selectors : list string :=
  [("[data-testid=" ++ dq ++ "copilot-answer" ++ dq ++ "]")%string;
   ".prose"%string;
   ("[class*=" ++ dq ++ "answer" ++ dq ++ "]")%string;
   ("[class*=" ++ dq ++ "response" ++ dq ++ "]")%string;
   "main div div div div p"%string;
   ("div[class*=" ++ dq ++ "prose" ++ dq ++ "] p")%string].

(** The selector of the last resort (line 75). *)
Definition paragraphs : string :=
  ("main p, main div[class*=" ++ dq ++ "text" ++ dq ++ "]")%string.

(** [parts.join('\n')] *)
Fixpoint join_nl (parts : list str) : str :=
  match parts with
  | [] => []
  | [part] => part
  | part :: more => part ++ 10%N :: join_nl more
  end.

(** The [for] loop of lines 68-73: the elements of the first selector that
    finds any. *)
Fixpoint first_found (document : Document) (sels : list string)
    : option (list str) :=
  match sels with
  | [] => None
  | selector :: more =>
      match document selector with
      | [] => first_found document more
      | elements => Some elements
      end
  end.

(** The callback given to [page.evaluate]. *)
Definition extractText (document : Document) : str :=
  match first_found document selectors with
  | Some elements => join_nl elements
  | None => join_nl (document paragraphs)
  end.

End Page.

(** ** The callers of the bot: the scheduled job, the HTTP routes that act on
    it and the signal handlers (lines 229-289)

    The routes [/] and [/status] report the next date of the schedule and the
    modification time of the data file, which this development does not
    model; they are left out. *)

Module Server.
Import JS Parser Bot.









End Server.

(** ** More shapes *)

Module MoreShapes.
Import JS RegExp Parser Bot Shapes.

(** A record as the fallback makes it: a ticker of two to five capital
    letters, the placeholder for a company and a small cap. *)
Definition fallback_record (r : StockRecord) : Prop :=
  2 <= length (ticker r) <= 5 /\
  capital_letters r /\
  company r = lit "Company for " ++ ticker r /\
  small_cap r.

(** The market cap of the record is the value of a "$<v> billion" that
    stands in the text. *)
Definition cap_from (text : str) (r : StockRecord) : Prop :=
  exists v, marketCap r = lit "$" ++ v ++ lit "B" /\ In v (cap_values text).

(** The records carry the readings of the clock in the order they were
    taken: the first reading, the second, and so on. *)
Definition stamped (now : nat -> str) (stocks : list StockRecord) : Prop :=
  map extractedAt stocks = map now (seq 0 (length stocks)).



(** The state the handler of [runQuery] leaves: the browser at hand closed
    and the handle cleared. *)
Definition torn_down (st : State) : State :=
  match browser st with
  | Some b =>
      {| browser := None; page := page st; launches := launches st;
         closed := b :: closed st; csvFile := csvFile st |}
  | None => st
  end.

(** The state a [saveToCSV] that resolves leaves. *)
Definition saved (records : list StockRecord) (st : State) : State :=
  {| browser := browser st; page := page st; launches := launches st;
     closed := closed st;
     csvFile := CsvWriter.writeRecords true records (csvFile st) |}.

(** [{ success: true, stockCount: stocks.length, stocks }] *)
Definition succeeded (records : list StockRecord) : RunResult :=
  {| success := true; stockCount := Some (length records);
     stocks := Some records; error := None |}.

End MoreShapes.

(** ** More sample inputs *)

Module MoreSamples.
Import JS Parser Bot Page Samples.

(** A page whose answer region holds two paragraphs, found by the second
    selector only. *)
Definition page_prose : Document :=
  fun selector =>
    if String.eqb selector ".prose"
    then [lit "XYZ (Example Corp) ... $1.5 billion";
          lit "ABC is worth $0.9 billion"]
    else [].

(** A page on which no selector finds anything. *)
Definition page_blank : Document := fun _ => [].



End MoreSamples.

(** * Properties *)

(** ** The matcher: where it stops and what it captures *)

Module RegExpFacts.
Import JS RegExp.

Lemma m_seq icase r1 r2 st k :
  m icase (Seq r1 r2) st k = m icase r1 st (fun st1 => m icase r2 st1 k).
Proof. reflexivity. Qed.

Lemma m_chr icase cs st k :
  m icase (Chr cs) st k =
  match rest st with
  | x :: tl =>
      if cmatch icase cs x
      then k {| pos := S (pos st); prev := Some x; rest := tl;
                caps := caps st |}
      else None
  | [] => None
  end.
Proof. reflexivity. Qed.

Lemma m_rep icase cs lo hi st k :
  m icase (Rep cs lo hi) st k =
  repeat_matcher icase cs (rest st) lo hi (pos st) (prev st) (caps st) k.
Proof. reflexivity. Qed.

Lemma repeat_matcher_inv icase cs :
  forall rst lo hi p pv cp k f,
    (forall h, hi = Some h -> lo <= h) ->
    repeat_matcher icase cs rst lo hi p pv cp k = Some f ->
    exists w rst' pv',
      rst = w ++ rst' /\
      Forall (fun c => cmatch icase cs c = true) w /\
      lo <= length w /\
      (forall h, hi = Some h -> length w <= h) /\
      k {| pos := p + length w; prev := pv'; rest := rst'; caps := cp |}
        = Some f.
Proof.
  induction rst as [|x tl IH]; intros lo hi p pv cp k f Hwf H.
  - exists [], [], pv. simpl in *. rewrite Nat.add_0_r.
    assert (Hk : lo = 0 /\
      k {| pos := p; prev := pv; rest := []; caps := cp |} = Some f).
    { destruct hi as [[|h]|]; destruct lo; try discriminate; auto.
      specialize (Hwf 0 eq_refl); lia. }
    destruct Hk as [-> Hk]. repeat split; auto; intros; lia.
  - simpl in H.
    assert (Hstop : forall (E : lo = 0)
      (Hk : k {| pos := p; prev := pv; rest := x :: tl; caps := cp |}
            = Some f),
      exists w rst' pv',
        x :: tl = w ++ rst' /\
        Forall (fun c => cmatch icase cs c = true) w /\
        lo <= length w /\
        (forall h, hi = Some h -> length w <= h) /\
        k {| pos := p + length w; prev := pv'; rest := rst'; caps := cp |}
          = Some f).
    { intros E Hk. exists [], (x :: tl), pv. simpl. rewrite Nat.add_0_r.
      repeat split; auto; intros; lia. }
    assert (Hmore :
      cmatch icase cs x = true ->
      (forall h, hi = Some h -> 0 < h) ->
      repeat_matcher icase cs tl (Nat.pred lo) (option_map Nat.pred hi)
        (S p) (Some x) cp k = Some f ->
      exists w rst' pv',
        x :: tl = w ++ rst' /\
        Forall (fun c => cmatch icase cs c = true) w /\
        lo <= length w /\
        (forall h, hi = Some h -> length w <= h) /\
        k {| pos := p + length w; prev := pv'; rest := rst'; caps := cp |}
          = Some f).
    { intros Hx Hpos Hr. apply IH in Hr.
      - destruct Hr as (w & rst' & pv' & -> & Hall & Hlo & Hhi & Hk).
        exists (x :: w), rst', pv'. simpl.
        replace (p + S (length w)) with (S p + length w) by lia.
        repeat split; auto.
        + lia.
        + intros h ->. specialize (Hpos h eq_refl).
          specialize (Hhi (Nat.pred h) eq_refl). lia.
      - intros h Hh. destruct hi as [h0|]; [|discriminate].
        simpl in Hh. injection Hh as <-.
        specialize (Hwf h0 eq_refl). lia. }
    destruct hi as [[|h]|].
    + destruct lo; [|specialize (Hwf 0 eq_refl); lia].
      apply Hstop; auto.
    + destruct (cmatch icase cs x) eqn:Hx.
      * destruct (repeat_matcher icase cs tl (Nat.pred lo)
                    (option_map Nat.pred (Some (S h))) (S p) (Some x) cp k)
          eqn:Hr.
        -- injection H as <-. apply Hmore; auto.
           intros h0 [= <-]. lia.
        -- destruct lo; [apply Hstop; auto | discriminate].
      * destruct lo; [apply Hstop; auto | discriminate].
    + destruct (cmatch icase cs x) eqn:Hx.
      * destruct (repeat_matcher icase cs tl (Nat.pred lo)
                    (option_map Nat.pred None) (S p) (Some x) cp k) eqn:Hr.
        -- injection H as <-. apply Hmore; auto. discriminate.
        -- destruct lo; [apply Hstop; auto | discriminate].
      * destruct lo; [apply Hstop; auto | discriminate].
Qed.

(** Whatever a matcher hands to its continuation lies at least [minlen]
    characters further in the same input. *)
Lemma repeat_matcher_progress icase cs :
  forall rst lo hi p pv cp k f,
    repeat_matcher icase cs rst lo hi p pv cp k = Some f ->
    exists w rst' pv',
      rst = w ++ rst' /\
      minlen (Rep cs lo hi) <= length w /\
      k {| pos := p + length w; prev := pv'; rest := rst'; caps := cp |}
        = Some f.
Proof.
  induction rst as [|x tl IH]; intros lo hi p pv cp k f H.
  - exists [], [], pv. simpl in *. rewrite Nat.add_0_r.
    destruct hi as [[|h]|]; destruct lo; try discriminate;
      repeat split; auto; lia.
  - simpl in H.
    assert (Hstop : forall (E : minlen (Rep cs lo hi) = 0)
      (Hk : k {| pos := p; prev := pv; rest := x :: tl; caps := cp |}
            = Some f),
      exists w rst' pv',
        x :: tl = w ++ rst' /\
        minlen (Rep cs lo hi) <= length w /\
        k {| pos := p + length w; prev := pv'; rest := rst'; caps := cp |}
          = Some f).
    { intros E Hk. exists [], (x :: tl), pv. rewrite E. simpl.
      rewrite Nat.add_0_r. repeat split; auto. }
    assert (Hmore :
      repeat_matcher icase cs tl (Nat.pred lo) (option_map Nat.pred hi)
        (S p) (Some x) cp k = Some f ->
      exists w rst' pv',
        x :: tl = w ++ rst' /\
        minlen (Rep cs lo hi) <= length w /\
        k {| pos := p + length w; prev := pv'; rest := rst'; caps := cp |}
          = Some f).
    { intros Hr. apply IH in Hr.
      destruct Hr as (w & rst' & pv' & -> & Hlo & Hk).
      exists (x :: w), rst', pv'. simpl.
      replace (p + S (length w)) with (S p + length w) by lia.
      repeat split; auto.
      simpl in Hlo. destruct hi as [h|]; simpl in *; lia. }
    destruct hi as [[|h]|].
    + apply Hstop; auto. simpl. lia.
    + destruct (cmatch icase cs x).
      * destruct (repeat_matcher icase cs tl (Nat.pred lo)
                    (option_map Nat.pred (Some (S h))) (S p) (Some x) cp k)
          eqn:Hr.
        -- injection H as <-. apply Hmore; auto.
        -- destruct lo; [apply Hstop; auto | discriminate].
      * destruct lo; [apply Hstop; auto | discriminate].
    + destruct (cmatch icase cs x).
      * destruct (repeat_matcher icase cs tl (Nat.pred lo)
                    (option_map Nat.pred None) (S p) (Some x) cp k) eqn:Hr.
        -- injection H as <-. apply Hmore; auto.
        -- destruct lo; [apply Hstop; auto | discriminate].
      * destruct lo; [apply Hstop; auto | discriminate].
Qed.


(** Where a matcher hands over to its continuation: at least [minlen]
    characters further in the same input, with captures added for its own
    groups only. *)
Lemma m_trace icase :
  forall r st k f,
    m icase r st k = Some f ->
    exists st' w new,
      k st' = Some f /\
      rest st = w ++ rest st' /\
      pos st' = pos st + length w /\
      minlen r <= length w /\
      caps st' = new ++ caps st /\
      Forall (fun e => In (fst e) (groups r)) new.
Proof.
  induction r as [cs|cs lo hi|r1 IH1 r2 IH2|n r1 IH1|r1 IH1| | |];
    intros st k f H; simpl in H.
  - destruct (rest st) as [|x tl] eqn:Hr; [discriminate|].
    destruct (cmatch icase cs x); [|discriminate].
    eexists; exists [x], []. split; [exact H|]. simpl.
    repeat split; auto; lia.
  - apply repeat_matcher_progress in H.
    destruct H as (w & rst' & pv' & Hr & Hlen & Hk).
    eexists; exists w, []. split; [exact Hk|]. simpl.
    repeat split; auto.
  - apply IH1 in H.
    destruct H as (st1 & w1 & new1 & H & Hr1 & Hp1 & Hl1 & Hc1 & Hn1).
    apply IH2 in H.
    destruct H as (st2 & w2 & new2 & H & Hr2 & Hp2 & Hl2 & Hc2 & Hn2).
    exists st2, (w1 ++ w2), (new2 ++ new1). split; [exact H|].
    rewrite Hr1, Hr2, Hp2, Hp1, Hc2, Hc1, length_app, !app_assoc. simpl.
    repeat split; try lia.
    apply Forall_app. split; eapply Forall_impl; eauto; simpl; intros;
      apply in_or_app; auto.
  - apply IH1 in H.
    destruct H as (st1 & w1 & new1 & H & Hr1 & Hp1 & Hl1 & Hc1 & Hn1).
    eexists; exists w1; eexists (_ :: new1). split; [exact H|]. simpl.
    rewrite Hc1. repeat split; auto. constructor; simpl; auto.
    eapply Forall_impl; eauto. simpl. auto.
  - destruct (m icase r1 st (fun st1 => Some st1)) as [st1|] eqn:Hm;
      [|discriminate].
    apply IH1 in Hm.
    destruct Hm as (st1' & w1 & new1 & [= ->] & _ & _ & _ & Hc1 & Hn1).
    eexists; exists [], new1. split; [exact H|]. simpl.
    repeat split; auto; lia.
  - destruct (xorb _ _); [|discriminate].
    exists st, [], []. simpl. repeat split; auto.
  - destruct (pos st) eqn:Hp; [|discriminate].
    exists st, [], []. simpl. repeat split; auto.
  - exists st, [], []. simpl. repeat split; auto.
Qed.

Lemma m_progress icase r st k f :
  m icase r st k = Some f ->
  exists st' w,
    k st' = Some f /\
    rest st = w ++ rest st' /\
    pos st' = pos st + length w /\
    minlen r <= length w.
Proof.
  intros H. apply m_trace in H.
  destruct H as (st' & w & new & H). exists st', w. tauto.
Qed.

Lemma m_caps icase r st k f :
  m icase r st k = Some f ->
  exists st' new,
    k st' = Some f /\
    caps st' = new ++ caps st /\
    Forall (fun e => In (fst e) (groups r)) new.
Proof.
  intros H. apply m_trace in H.
  destruct H as (st' & w & new & H). exists st', new. tauto.
Qed.

Lemma seq_trace icase r1 r2 st k f :
  m icase (Seq r1 r2) st k = Some f ->
  exists st1 w,
    m icase r2 st1 k = Some f /\ rest st = w ++ rest st1.
Proof.
  rewrite m_seq. intros H. apply m_trace in H.
  destruct H as (st1 & w & new & H & Hr & _). eauto.
Qed.

Lemma seq_suffix icase r1 r2 st k f text :
  (exists pre, text = pre ++ rest st) ->
  m icase (Seq r1 r2) st k = Some f ->
  exists st1,
    m icase r2 st1 k = Some f /\ exists pre, text = pre ++ rest st1.
Proof.
  intros (pre & Hpre) H. apply seq_trace in H.
  destruct H as (st1 & w & H & Hr). exists st1. split; auto.
  exists (pre ++ w). rewrite Hpre, Hr. now rewrite app_assoc.
Qed.

Lemma look_inv icase r st k f :
  m icase (Look r) st k = Some f ->
  exists cp,
    k {| pos := pos st; prev := prev st; rest := rest st; caps := cp |}
      = Some f.
Proof.
  cbn [m]. destruct (m icase r st _) as [st1|]; [|discriminate]. eauto.
Qed.

(** A capturing group around a quantified class captures the characters the
    quantifier took. *)
Lemma group_rep_inv icase n cs lo hi st k f :
  (forall h, hi = Some h -> lo <= h) ->
  m icase (Group n (Rep cs lo hi)) st k = Some f ->
  exists w st',
    Forall (fun c => cmatch icase cs c = true) w /\
    lo <= length w /\
    (forall h, hi = Some h -> length w <= h) /\
    caps st' = (n, w) :: caps st /\
    rest st = w ++ rest st' /\
    k st' = Some f.
Proof.
  intros Hwf H. cbn [m] in H.
  apply repeat_matcher_inv in H; auto.
  destruct H as (w & rst' & pv' & Hr & Hall & Hlo & Hhi & Hk).
  cbn [pos prev rest caps] in Hk.
  exists w. eexists. repeat split; eauto.
  - cbn [caps]. rewrite Hr.
    replace (pos st + length w - pos st) with (length w) by lia.
    rewrite firstn_app, Nat.sub_diag, firstn_all. simpl.
    now rewrite app_nil_r.
  - exact Hr.
Qed.

Lemma lookup_skip n G new l :
  Forall (fun e : nat * str => In (fst e) G) new ->
  ~ In n G ->
  lookup n (new ++ l) = lookup n l.
Proof.
  induction 1 as [|[j s] new Hj Hnew IH]; intros Hn; simpl; auto.
  destruct (Nat.eqb_spec j n) as [->|]; [now elim Hn|auto].
Qed.

Lemma search_bounds re :
  forall rst p pv mr,
    search re rst p pv = Some mr ->
    p <= index mr /\
    index mr + minlen (pattern re) <= lastIndex mr /\
    lastIndex mr <= p + length rst.
Proof.
  induction rst as [|x tl IH]; intros p pv mr H; simpl in H.
  - destruct (m _ _ _ _) eqn:Hm; [|discriminate].
    injection H as <-. simpl.
    apply m_progress in Hm.
    destruct Hm as (st' & w & [= ->] & Hr & Hp & Hl). simpl in *.
    apply (f_equal (@length _)) in Hr. rewrite length_app in Hr.
    simpl in Hr. lia.
  - destruct (m _ _ _ _) eqn:Hm.
    + injection H as <-. simpl.
      apply m_progress in Hm.
      destruct Hm as (st' & w & [= ->] & Hr & Hp & Hl). simpl in *.
      apply (f_equal (@length _)) in Hr. rewrite length_app in Hr.
      simpl in Hr. lia.
    + apply IH in H. simpl. lia.
Qed.

(** [exec] returns a match that starts at or after [lastIndex], ends inside
    the string and is at least [minlen] long. *)
Lemma exec_bounds re s i mr :
  exec re s i = Some mr ->
  i <= index mr /\
  index mr + minlen (pattern re) <= lastIndex mr /\
  lastIndex mr <= length s.
Proof.
  unfold exec. intros H.
  destruct (length s <? i) eqn:Hi; [discriminate|].
  apply Nat.ltb_ge in Hi.
  apply search_bounds in H. rewrite length_skipn in H. lia.
Qed.

Lemma search_inv re :
  forall rst p pv mr,
    search re rst p pv = Some mr ->
    exists rst' p' pv' st,
      m (ignoreCase re) (pattern re)
        {| pos := p'; prev := pv'; rest := rst'; caps := [] |}
        (fun st => Some st) = Some st /\
      captures mr = caps st /\ index mr = p' /\ lastIndex mr = pos st.
Proof.
  induction rst as [|x tl IH]; intros p pv mr H; simpl in H.
  - destruct (m _ _ _ _) as [st|] eqn:Hm; [|discriminate].
    injection H as <-. exists [], p, pv, st. auto.
  - destruct (m _ _ _ _) as [st|] eqn:Hm.
    + injection H as <-. exists (x :: tl), p, pv, st. auto.
    + eapply IH; eauto.
Qed.

Lemma match_inv re s mr :
  match_ re s = Some mr ->
  exists rst' p' pv' st,
    m (ignoreCase re) (pattern re)
      {| pos := p'; prev := pv'; rest := rst'; caps := [] |}
      (fun st => Some st) = Some st /\
    captures mr = caps st /\ index mr = p' /\ lastIndex mr = pos st.
Proof.
  unfold match_, exec. simpl. apply search_inv.
Qed.



Lemma search_suffix re :
  forall rst p pv mr,
    search re rst p pv = Some mr ->
    exists pre rst' p' pv' st,
      rst = pre ++ rst' /\
      m (ignoreCase re) (pattern re)
        {| pos := p'; prev := pv'; rest := rst'; caps := [] |}
        (fun st => Some st) = Some st /\
      captures mr = caps st.
Proof.
  induction rst as [|x tl IH]; intros p pv mr H; simpl in H.
  - destruct (m _ _ _ _) as [st|] eqn:Hm; [|discriminate].
    injection H as <-. exists [], [], p, pv, st. auto.
  - destruct (m _ _ _ _) as [st|] eqn:Hm.
    + injection H as <-. exists [], (x :: tl), p, pv, st. auto.
    + apply IH in H.
      destruct H as (pre & rst' & p' & pv' & st & -> & H).
      exists (x :: pre), rst', p', pv', st. auto.
Qed.

(** A match found by [exec] starts somewhere in the text. *)
Lemma exec_suffix re s i mr :
  exec re s i = Some mr ->
  exists pre rst' p' pv' st,
    s = pre ++ rst' /\
    m (ignoreCase re) (pattern re)
      {| pos := p'; prev := pv'; rest := rst'; caps := [] |}
      (fun st => Some st) = Some st /\
    captures mr = caps st.
Proof.
  unfold exec. destruct (length s <? i); [discriminate|]. intros H.
  apply search_suffix in H.
  destruct H as (pre & rst' & p' & pv' & st & Hs & H).
  exists (firstn i s ++ pre), rst', p', pv', st. split; auto.
  rewrite <- app_assoc, <- Hs. symmetry. apply firstn_skipn.
Qed.

End RegExpFacts.

(** ** Character classes *)

Module ClassFacts.
Import JS RegExp Shapes.

Ltac bools :=
  repeat rewrite ?orb_true_iff, ?andb_true_iff, ?N.leb_le, ?N.eqb_eq,
    ?orb_false_iff, ?andb_false_iff, ?N.leb_gt, ?N.eqb_neq in *.

Lemma to_upper_cases c :
  (to_upper c = c /\ is_lower c = false) \/
  (to_upper c = (c - 32)%N /\ (97 <= c <= 122)%N).
Proof.
  unfold to_upper, is_lower, between.
  destruct (N.leb_spec 97 c); destruct (N.leb_spec c 122); simpl; auto.
Qed.

Lemma to_lower_cases c :
  (to_lower c = c /\ is_upper c = false) \/
  (to_lower c = (c + 32)%N /\ (65 <= c <= 90)%N).
Proof.
  unfold to_lower, is_upper, between.
  destruct (N.leb_spec 65 c); destruct (N.leb_spec c 90); simpl; auto.
Qed.

Lemma cmatch_digit_dot icase c :
  cmatch icase digit_dot c = true -> is_digit_dot c = true.
Proof.
  unfold cmatch, digit_dot, is_digit_dot, is_digit.
  cbn [neg items existsb in_item]. rewrite !orb_false_r.
  destruct icase; unfold between.
  - destruct (to_upper_cases c) as [(-> & _)|(-> & Hu)];
      destruct (to_lower_cases c) as [(-> & _)|(-> & Hl)];
      intros H; bools; lia.
  - intros H; bools; lia.
Qed.

Lemma cmatch_space icase c :
  cmatch icase space c = true -> is_space c = true.
Proof.
  unfold cmatch, space. cbn [neg items existsb in_item].
  rewrite !orb_false_r.
  destruct icase; auto.
  destruct (to_upper_cases c) as [(-> & _)|(-> & Hu)];
    destruct (to_lower_cases c) as [(-> & _)|(-> & Hl)];
    unfold is_space, between; intros H; bools; lia.
Qed.

(** A letter of a pattern matches itself, and its capital under [i]. *)
Lemma cmatch_letter icase a c :
  is_lower (N_of_ascii a) = true ->
  cmatch icase (one a) c = true -> to_lower c = N_of_ascii a.
Proof.
  unfold cmatch, one. cbn [neg items existsb in_item].
  rewrite !orb_false_r. generalize (N_of_ascii a). intros n Hn.
  unfold is_lower, between in Hn.
  destruct icase; unfold between.
  - destruct (to_upper_cases c) as [(-> & _)|(-> & Hu)];
      destruct (to_lower_cases c) as [(-> & _)|(-> & Hl)];
      intros H; bools; lia.
  - destruct (to_lower_cases c) as [(-> & _)|(-> & Hl)];
      intros H; bools; lia.
Qed.

Lemma cmatch_dollar icase c :
  cmatch icase (one "$") c = true -> c = 36%N.
Proof.
  unfold cmatch, one. cbn [neg items existsb in_item N_of_ascii].
  rewrite !orb_false_r. simpl N_of_digits.
  destruct icase; unfold between.
  - destruct (to_upper_cases c) as [(-> & _)|(-> & Hu)];
      destruct (to_lower_cases c) as [(-> & _)|(-> & Hl)];
      intros H; bools; lia.
  - intros H; bools; lia.
Qed.

Lemma cmatch_AZ c : cmatch false AZ c = true -> is_upper c = true.
Proof.
  unfold cmatch, AZ. simpl. rewrite orb_false_r. auto.
Qed.

Lemma cmatch_notAZ c : cmatch false notAZ c = negb (is_upper c).
Proof.
  unfold cmatch, notAZ, is_upper. cbn [neg items existsb in_item].
  now rewrite orb_false_r.
Qed.







Lemma space_not_digit_dot c : is_space c = true -> is_digit_dot c = false.
Proof.
  unfold is_space, is_digit_dot, is_digit, between. intros H.
  destruct (_ || _) eqn:E in |- *; auto. bools. lia.
Qed.

Lemma b_not_digit_dot c : to_lower c = 98%N -> is_digit_dot c = false.
Proof.
  unfold is_digit_dot, is_digit, between.
  destruct (to_lower_cases c) as [(-> & _)|(-> & Hl)]; intros H;
    destruct (_ || _) eqn:E in |- *; auto; bools; lia.
Qed.

Lemma b_not_space c : to_lower c = 98%N -> is_space c = false.
Proof.
  unfold is_space, between.
  destruct (to_lower_cases c) as [(-> & _)|(-> & Hl)]; intros H;
    destruct (_ || _) eqn:E in |- *; auto; bools; lia.
Qed.

End ClassFacts.

(** ** The parser always returns, and what its loops preserve *)

Module ParserFacts.
Import JS RegExp RegExpFacts Parser.

Lemma patterns_minlen pat : In pat patterns -> 1 <= minlen (pattern pat).
Proof.
  intros [<-|[<-|[<-|[<-|[]]]]]; vm_compute; lia.
Qed.

Section WithClock.
Variable now : nat -> str.

(** [accept] pushes at most one record and touches no earlier one. *)
Lemma accept_cases cand stocks :
  accept now cand stocks = stocks \/
  exists t c mc,
    cand = (Some t, Some c, Some mc) /\
    truthy (Some t) = true /\ truthy (Some c) = true /\
    truthy (Some mc) = true /\
    Number.le (Number.parseFloat mc) Number.two = true /\
    find_ticker (replace_all nonLetterRe t) stocks = None /\
    accept now cand stocks =
      stocks ++
      [{| ticker := replace_all nonLetterRe t;
          company := substring0 50 (trim (replace_first enumRe c));
          marketCap := lit "$" ++ mc ++ lit "B";
          extractedAt := now (length stocks) |}].
Proof.
  unfold accept.
  destruct cand as [[[t|] [c|]] [mc|]]; auto.
  destruct (truthy (Some t)) eqn:Ht; auto.
  destruct (truthy (Some c)) eqn:Hc; auto.
  destruct (truthy (Some mc)) eqn:Hm; auto.
  destruct (Number.le _ _) eqn:Hle; auto. simpl.
  destruct (find_ticker _ stocks) eqn:Hf; auto.
  right. exists t, c, mc. repeat split; auto.
Qed.

Lemma fallback_line_cases line stocks :
  fallback_line now line stocks = stocks \/
  exists tm cm t mc,
    match_ tickerRe line = Some tm /\ match_ (capRe true) line = Some cm /\
    group 1 tm = Some t /\ group 1 cm = Some mc /\
    Number.le (Number.parseFloat mc) Number.two = true /\
    find_ticker t stocks = None /\
    fallback_line now line stocks =
      stocks ++
      [{| ticker := t;
          company := lit "Company for " ++ t;
          marketCap := lit "$" ++ mc ++ lit "B";
          extractedAt := now (length stocks) |}].
Proof.
  unfold fallback_line.
  destruct (match_ tickerRe line) as [tm|]; auto.
  destruct (match_ (capRe true) line) as [cm|]; auto.
  destruct (group 1 tm) as [t|] eqn:Ht; auto.
  destruct (group 1 cm) as [mc|] eqn:Hmc; auto.
  destruct (Number.le _ _) eqn:Hle; auto.
  destruct (find_ticker t stocks) eqn:Hf; auto.
  right. exists tm, cm, t, mc. repeat split; auto.
Qed.

Section Invariant.

(** A property of the list of accepted records that every push of the
    pattern loops keeps while fewer than 15 records are held, and every push
    of the fallback keeps while fewer than 10 are. *)
Variable P : list StockRecord -> Prop.
Variable responseText : str.

Hypothesis accept_keeps :
  forall pat i mt stocks,
    In pat patterns ->
    exec pat responseText i = Some mt ->
    P stocks -> length stocks < 15 ->
    P (accept now (candidate pat mt) stocks).

Lemma while_exec_keeps pat :
  In pat patterns ->
  forall fuel i stocks,
    i <= length responseText ->
    length responseText < fuel + i ->
    P stocks ->
    exists out, while_exec now fuel pat responseText i stocks = Some out
                /\ P out.
Proof.
  intros Hin. induction fuel as [|fuel IH]; intros i stocks Hi Hf HP.
  - simpl in Hf. lia.
  - simpl. destruct (exec pat responseText i) as [mt|] eqn:He.
    + destruct (length stocks <? 15) eqn:Hl.
      * pose proof (exec_bounds _ _ _ He) as (Hidx & Hlen & Hend).
        pose proof (patterns_minlen Hin) as Hmin.
        apply IH; try lia.
        apply accept_keeps with (i := i); auto.
        now apply Nat.ltb_lt.
      * eauto.
    + eauto.
Qed.

Lemma for_patterns_keeps :
  forall pats stocks,
    incl pats patterns ->
    P stocks ->
    exists out, for_patterns now pats responseText stocks = Some out /\ P out.
Proof.
  induction pats as [|pat more IH]; intros stocks Hincl HP;
    cbn [for_patterns].
  - eauto.
  - destruct (@while_exec_keeps pat (Hincl _ (or_introl eq_refl))
                (S (length responseText)) 0 stocks) as (s1 & -> & HP1);
      auto; try lia.
    apply IH; auto. intros x Hx. apply Hincl. now right.
Qed.

Lemma strategy_pass_keeps :
  P [] -> exists out, strategy_pass now responseText = Some out /\ P out.
Proof.
  intros H0. apply for_patterns_keeps; auto. apply incl_refl.
Qed.

Hypothesis fallback_keeps :
  forall line stocks,
    P stocks -> length stocks < 10 -> P (fallback_line now line stocks).

Lemma fallback_loop_keeps lines :
  forall stocks, P stocks -> P (fallback now lines stocks).
Proof.
  induction lines as [|line more IH]; intros stocks HP; cbn [fallback];
    auto.
  destruct (10 <=? length stocks) eqn:Hl; auto.
  apply IH, fallback_keeps; auto. apply Nat.leb_gt in Hl. lia.
Qed.

Lemma parseStockData_keeps :
  P [] -> exists out, parseStockData now responseText = Some out /\ P out.
Proof.
  intros H0. unfold parseStockData.
  destruct (strategy_pass_keeps H0) as (s & -> & HP).
  destruct (length s <? 5); eauto using fallback_loop_keeps.
Qed.

End Invariant.

(** [parseStockData] returns on every text: the matches of one pattern move
    to the right, so the loop for it ends within the iterations allowed. *)
Lemma parseStockData_total responseText :
  exists out, parseStockData now responseText = Some out.
Proof.
  destruct (@parseStockData_keeps (fun _ => True) responseText)
    as (out & H & _); eauto.
Qed.

Lemma strategy_pass_total responseText :
  exists out, strategy_pass now responseText = Some out.
Proof.
  destruct (@strategy_pass_keeps (fun _ => True) responseText)
    as (out & H & _); eauto.
Qed.

End WithClock.

End ParserFacts.

(** ** What the loops of the parser keep *)

Module LoopFacts.
Import JS RegExp RegExpFacts Parser ParserFacts.

Lemma str_eqb_true a b : str_eqb a b = true <-> a = b.
Proof.
  unfold str_eqb. destruct (list_eq_dec N.eq_dec a b); split; auto.
  discriminate.
Qed.

Lemma find_ticker_None t stocks :
  find_ticker t stocks = None -> ~ In t (map ticker stocks).
Proof.
  unfold find_ticker. intros H Hin. apply in_map_iff in Hin.
  destruct Hin as (r & <- & Hr).
  pose proof (find_none _ _ H _ Hr) as E. simpl in E.
  assert (str_eqb (ticker r) (ticker r) = true) by now apply str_eqb_true.
  congruence.
Qed.

Lemma find_ticker_Some t stocks :
  In t (map ticker stocks) -> find_ticker t stocks <> None.
Proof.
  unfold find_ticker. intros Hin H. apply in_map_iff in Hin.
  destruct Hin as (r & <- & Hr).
  pose proof (find_none _ _ H _ Hr) as E. simpl in E.
  assert (str_eqb (ticker r) (ticker r) = true) by now apply str_eqb_true.
  congruence.
Qed.

Section WithClock.
Variable now : nat -> str.

(** The pattern loops and the fallback only ever add records at the end. *)
Lemma while_exec_appends pat responseText :
  In pat patterns ->
  forall fuel i stocks out,
    while_exec now fuel pat responseText i stocks = Some out ->
    exists more, out = stocks ++ more.
Proof.
  intros Hin. induction fuel as [|fuel IH]; intros i stocks out H;
    simpl in H; [discriminate|].
  destruct (exec pat responseText i) as [mt|].
  - destruct (length stocks <? 15).
    + apply IH in H. destruct H as (more & ->).
      destruct (accept_cases now (candidate pat mt) stocks)
        as [->|(t & c & mc & _ & _ & _ & _ & _ & _ & ->)]; eauto.
      rewrite <- app_assoc. eauto.
    + injection H as <-. exists []. now rewrite app_nil_r.
  - injection H as <-. exists []. now rewrite app_nil_r.
Qed.

Lemma for_patterns_appends responseText :
  forall pats stocks out,
    incl pats patterns ->
    for_patterns now pats responseText stocks = Some out ->
    exists more, out = stocks ++ more.
Proof.
  induction pats as [|pat more IH]; intros stocks out Hincl H;
    cbn [for_patterns] in H.
  - injection H as <-. exists []. now rewrite app_nil_r.
  - destruct (while_exec now _ pat responseText 0 stocks) as [s1|] eqn:Hw;
      [|discriminate].
    apply while_exec_appends in Hw; [|apply Hincl; now left].
    destruct Hw as (m1 & ->).
    apply IH in H; [|intros x Hx; apply Hincl; now right].
    destruct H as (m2 & ->). rewrite <- app_assoc. eauto.
Qed.

(** Running the loop over a longer list of patterns continues from what the
    shorter list gave. *)
Lemma for_patterns_app responseText :
  forall pats1 pats2 stocks,
    for_patterns now (pats1 ++ pats2) responseText stocks =
    match for_patterns now pats1 responseText stocks with
    | Some mid => for_patterns now pats2 responseText mid
    | None => None
    end.
Proof.
  induction pats1 as [|pat more IH]; intros pats2 stocks;
    cbn [for_patterns app]; auto.
  destruct (while_exec now _ pat responseText 0 stocks); auto.
Qed.

Lemma fallback_line_appends line stocks :
  exists more, fallback_line now line stocks = stocks ++ more.
Proof.
  destruct (fallback_line_cases now line stocks)
    as [->|(tm & cm & t & mc & _ & _ & _ & _ & _ & _ & ->)]; eauto.
  exists []. now rewrite app_nil_r.
Qed.

Lemma fallback_appends lines :
  forall stocks, exists more, fallback now lines stocks = stocks ++ more.
Proof.
  induction lines as [|line rest IH]; intros stocks; cbn [fallback].
  - exists []. now rewrite app_nil_r.
  - destruct (10 <=? length stocks).
    + exists []. now rewrite app_nil_r.
    + destruct (fallback_line_appends line stocks) as (m1 & ->).
      destruct (IH (stocks ++ m1)) as (m2 & ->).
      rewrite <- app_assoc. eauto.
Qed.

(** Once ten records are held the fallback accepts nothing more. *)
Lemma fallback_full lines stocks :
  10 <= length stocks -> fallback now lines stocks = stocks.
Proof.
  intros H. destruct lines as [|line rest]; cbn [fallback]; auto.
  apply Nat.leb_le in H. now rewrite H.
Qed.

Lemma fallback_length lines :
  forall stocks, length stocks <= 10 ->
                 length (fallback now lines stocks) <= 10.
Proof.
  intros stocks H.
  apply (@fallback_loop_keeps now (fun s => length s <= 10)); auto.
  intros line s Hs Hlt.
  destruct (fallback_line_cases now line s)
    as [->|(tm & cm & t & mc & _ & _ & _ & _ & _ & _ & ->)]; auto.
  rewrite length_app. simpl. lia.
Qed.

(** The fallback handles its lines one after the other. *)
Lemma fallback_app lines1 :
  forall lines2 stocks,
    fallback now (lines1 ++ lines2) stocks =
    fallback now lines2 (fallback now lines1 stocks).
Proof.
  induction lines1 as [|line rest IH]; intros lines2 stocks;
    cbn [fallback app]; auto.
  destruct (10 <=? length stocks) eqn:Hl; auto.
  symmetry. apply fallback_full. now apply Nat.leb_le.
Qed.

End WithClock.

End LoopFacts.

(** ** What the patterns capture *)

Module PatternFacts.
Import JS RegExp RegExpFacts ClassFacts Parser ParserFacts LoopFacts Shapes.

(** The group of [/\b([A-Z]{2,5})\b/] holds two to five capital letters. *)
Lemma tickerRe_capture line tm t :
  match_ tickerRe line = Some tm ->
  group 1 tm = Some t ->
  2 <= length t <= 5 /\ Forall (fun c => is_upper c = true) t.
Proof.
  intros Hm Hg. apply match_inv in Hm.
  destruct Hm as (rst & p & pv & st & Hm & Hc & _ & _).
  unfold group in Hg. rewrite Hc in Hg. clear Hc tm.
  cbn [tickerRe pattern ignoreCase cat fold_right m pos prev rest caps]
    in Hm.
  destruct (xorb _ _); [|discriminate].
  apply repeat_matcher_inv in Hm; [|intros h [= <-]; lia].
  destruct Hm as (w & rst' & pv' & -> & Hall & Hlo & Hhi & Hk).
  cbn [pos prev rest caps] in Hk.
  destruct (xorb _ _); [|discriminate].
  injection Hk as <-. cbn [caps lookup Nat.eqb] in Hg.
  replace (p + length w - p) with (length w) in Hg by lia.
  rewrite firstn_app, Nat.sub_diag, firstn_all in Hg. simpl in Hg.
  rewrite app_nil_r in Hg. injection Hg as <-.
  specialize (Hhi 5 eq_refl). split; [lia|].
  eapply Forall_impl; [|exact Hall]. apply cmatch_AZ.
Qed.

(** *** Tickers *)

(** [replace(/[^A-Z]/g, '')] leaves capital letters only. *)
Lemma delete_nonLetter :
  forall rst p pv,
    Forall (fun c => is_upper c = true)
      (delete_matches nonLetterRe rst p pv 0).
Proof.
  induction rst as [|x tl IH]; intros p pv; cbn [delete_matches];
    [constructor|].
  unfold match_here.
  cbn [nonLetterRe pattern ignoreCase m rest pos prev caps].
  rewrite cmatch_notAZ. destruct (is_upper x) eqn:Hx; cbn [negb].
  - constructor; auto.
  - cbn [pos]. replace (S p - p) with 1 by lia. apply IH.
Qed.

(** *** Market caps *)

Lemma span_app f a r :
  Forall (fun c => f c = true) a ->
  match r with x :: _ => f x = false | [] => True end ->
  span f (a ++ r) = (a, r).
Proof.
  intros Ha Hr. induction Ha as [|c a Hc Ha IH]; simpl.
  - destruct r as [|x r]; simpl; auto. now rewrite Hr.
  - now rewrite Hc, IH.
Qed.

Lemma cap_shape_here tl v : cap_shape tl v -> cap_here tl = Some v.
Proof.
  intros (ws & b & r & -> & Hne & Hv & Hws & Hlen & Hb).
  destruct b as [|b0 b]; [discriminate|].
  assert (Hb0 : to_lower b0 = 98%N) by (injection Hb; auto).
  unfold cap_here.
  rewrite (@span_app is_digit_dot v _ Hv).
  - rewrite (@span_app is_space ws _ Hws).
    + destruct v; [now elim Hne|].
      unfold billion_ahead.
      replace (firstn 7 ((b0 :: b) ++ r)) with (b0 :: b).
      * rewrite Hb. unfold str_eqb.
        destruct (list_eq_dec _ _ _); [reflexivity|contradiction].
      * rewrite <- Hlen, firstn_app, Nat.sub_diag, firstn_all. simpl.
        now rewrite app_nil_r.
    + simpl. now apply b_not_space.
  - destruct ws as [|w0 ws]; simpl.
    + now apply b_not_digit_dot.
    + inversion Hws; subst. now apply space_not_digit_dot.
Qed.

Lemma cap_shape_app tl v c : cap_shape tl v -> cap_shape (tl ++ c) v.
Proof.
  intros (ws & b & r & -> & H). exists ws, b, (r ++ c).
  split; [|exact H]. now rewrite <- !app_assoc.
Qed.

Lemma cap_values_in pre tl v :
  cap_shape tl v -> In v (cap_values (pre ++ 36%N :: tl)).
Proof.
  intros H. apply cap_shape_here in H.
  induction pre as [|c pre IH]; simpl.
  - rewrite H. now left.
  - apply in_or_app. now right.
Qed.

Lemma chars_inv icase :
  forall (l : list ascii) st k f,
    Forall (fun a => is_lower (N_of_ascii a) = true) l ->
    m icase (cat (map (fun a => Chr (one a)) l)) st k = Some f ->
    exists b st',
      rest st = b ++ rest st' /\
      map to_lower b = map N_of_ascii l /\
      caps st' = caps st /\
      k st' = Some f.
Proof.
  induction l as [|a l IH]; intros st k f Hl H.
  - exists [], st. auto.
  - inversion Hl as [|? ? Ha Hl']; subst.
    cbn [map cat fold_right] in H. rewrite m_seq, m_chr in H.
    destruct (rest st) as [|x tl] eqn:Hr; [discriminate|].
    destruct (cmatch icase (one a) x) eqn:Hx; [|discriminate].
    apply (IH _ _ _ Hl') in H.
    destruct H as (b & st' & Hr' & Hb & Hc & Hk).
    cbn [rest caps] in Hr', Hc.
    exists (x :: b), st'. rewrite Hr'. cbn [map].
    rewrite Hb, (cmatch_letter _ _ _ Ha Hx). auto.
Qed.

(** The end of the patterns, [\$([0-9.]+)\s*billion]: what it matches and
    what its group captures. *)
Lemma cap_tail_inv icase n st k f :
  m icase
    (Seq (Chr (one "$"))
       (Seq (Group n (Rep digit_dot 1 None))
          (Seq (Rep space 0 None) (Seq (word "billion") Eps)))) st k
    = Some f ->
  exists v tl st',
    rest st = 36%N :: tl /\
    cap_shape tl v /\
    caps st' = (n, v) :: caps st /\
    k st' = Some f.
Proof.
  intros H. rewrite m_seq, m_chr in H.
  destruct (rest st) as [|x tl] eqn:Hr; [discriminate|].
  destruct (cmatch icase (one "$") x) eqn:Hx; [|discriminate].
  apply cmatch_dollar in Hx. subst x.
  rewrite m_seq in H. apply group_rep_inv in H; [|discriminate].
  destruct H as (v & st2 & Hv & Hlen & _ & Hc2 & Hr2 & H).
  cbn [rest caps] in Hc2, Hr2.
  rewrite m_seq, m_rep in H.
  apply repeat_matcher_inv in H; [|discriminate].
  destruct H as (ws & rst3 & pv3 & Hr3 & Hws & _ & _ & H).
  rewrite m_seq in H. unfold word in H.
  apply chars_inv in H; [|repeat constructor].
  destruct H as (b & st4 & Hr4 & Hb & Hc4 & H).
  cbn [rest caps m] in Hr4, Hc4, H.
  exists v, tl, st4. split; [reflexivity|].
  split; [|split; [rewrite Hc4; exact Hc2 | exact H]].
  exists ws, b, (rest st4). rewrite Hr2, Hr3, Hr4.
  repeat split; auto.
  - intros ->. simpl in Hlen. lia.
  - eapply Forall_impl; [|exact Hv]. apply cmatch_digit_dot.
  - eapply Forall_impl; [|exact Hws]. apply cmatch_space.
  - apply (f_equal (@length _)) in Hb. rewrite !length_map in Hb.
    exact Hb.
Qed.

Lemma trimStart_id v :
  match v with c :: _ => is_space c = false | [] => True end ->
  trimStart v = v.
Proof. destruct v; simpl; auto. now intros ->. Qed.

Lemma trim_digit_dot v :
  Forall (fun c => is_digit_dot c = true) v -> trim v = v.
Proof.
  intros Hv.
  assert (Hns : forall w, Forall (fun c => is_digit_dot c = true) w ->
                match w with c :: _ => is_space c = false | [] => True end).
  { intros [|c w] Hw; auto. inversion Hw; subst.
    destruct (is_space c) eqn:E; auto.
    apply space_not_digit_dot in E. congruence. }
  unfold trim, trimEnd. rewrite (trimStart_id v) by (apply Hns; exact Hv).
  rewrite trimStart_id; [apply rev_involutive|].
  apply Hns. now apply Forall_rev.
Qed.

Lemma cap_shape_digit_dot tl v :
  cap_shape tl v -> Forall (fun c => is_digit_dot c = true) v.
Proof. intros (ws & b & r & _ & _ & H & _). exact H. Qed.

Ltac peel H :=
  eapply seq_suffix in H; [|eassumption];
  let st := fresh "st" in
  let Hs := fresh "Hs" in
  destruct H as (st & H & Hs); cbn [rest] in Hs.

(** The cap a match of patterns 1 to 3 captures is the value of a
    "$<v> billion" of the text. *)
Lemma pattern_cap pat responseText i mt v :
  In pat [pattern1; pattern2; pattern3] ->
  exec pat responseText i = Some mt ->
  group 3 mt = Some v ->
  In v (cap_values responseText) /\ trim v = v.
Proof.
  intros Hin He Hg. apply exec_suffix in He.
  destruct He as (pre & rst & p & pv & st & Hs & Hm & Hc).
  unfold group in Hg. rewrite Hc in Hg. clear Hc mt.
  assert (Hs0 : exists pre0, responseText = pre0 ++
    rest {| pos := p; prev := pv; rest := rst; caps := [] |})
    by (exists pre; exact Hs).
  clear Hs.
  assert (Htail : exists st6,
    m true
      (Seq (Chr (one "$"))
         (Seq (Group 3 (Rep digit_dot 1 None))
            (Seq (Rep space 0 None) (Seq (word "billion") Eps))))
      st6 (fun st => Some st) = Some st /\
    exists pre0, responseText = pre0 ++ rest st6).
  { destruct Hin as [<-|[<-|[<-|[]]]];
      cbn [pattern1 pattern2 pattern3 pattern ignoreCase cat fold_right]
        in Hm.
    - do 6 peel Hm. eauto.
    - do 6 peel Hm. eauto.
    - do 7 peel Hm. eauto. }
  destruct Htail as (st6 & Hm6 & pre6 & Hs6).
  apply cap_tail_inv in Hm6.
  destruct Hm6 as (v' & tl & st' & Hr & Hshape & Hc & [= ->]).
  rewrite Hc in Hg. cbn [lookup Nat.eqb] in Hg. injection Hg as <-.
  split.
  - rewrite Hs6, Hr. now apply cap_values_in.
  - apply trim_digit_dot. eapply cap_shape_digit_dot; eauto.
Qed.

(** The line a match of pattern 4 captures is a piece of the text. *)
Lemma pattern4_line responseText i mt line :
  exec pattern4 responseText i = Some mt ->
  group 3 mt = Some line ->
  exists a c, responseText = a ++ line ++ c.
Proof.
  intros He Hg. apply exec_suffix in He.
  destruct He as (pre & rst & p & pv & st & Hs & Hm & Hc).
  unfold group in Hg. rewrite Hc in Hg. clear Hc mt.
  cbn [pattern4 pattern ignoreCase] in Hm.
  unfold cat at 1 in Hm. cbn [fold_right] in Hm.
  rewrite m_seq in Hm. apply look_inv in Hm. destruct Hm as (cp1 & Hm).
  cbn [pos prev rest] in Hm.
  rewrite m_seq in Hm. apply look_inv in Hm. destruct Hm as (cp2 & Hm).
  cbn [pos prev rest] in Hm.
  rewrite m_seq in Hm. apply group_rep_inv in Hm; [|discriminate].
  destruct Hm as (w & st3 & _ & _ & _ & Hc3 & Hr3 & Hk).
  cbn [m] in Hk. injection Hk as <-.
  cbn [rest caps] in Hc3, Hr3.
  rewrite Hc3 in Hg. cbn [lookup Nat.eqb] in Hg. injection Hg as <-.
  exists pre, (rest st3). now rewrite Hs, Hr3.
Qed.

(** The cap [/\$([0-9.]+)\s*billion/] finds in a piece of the text is the
    value of a "$<v> billion" of the text. *)
Lemma capRe_cap icase responseText a line c cm v :
  responseText = a ++ line ++ c ->
  match_ (capRe icase) line = Some cm ->
  group 1 cm = Some v ->
  In v (cap_values responseText).
Proof.
  intros Ht Hm Hg. apply exec_suffix in Hm.
  destruct Hm as (pre & rst & p & pv & st & Hs & Hm & Hc).
  unfold group in Hg. rewrite Hc in Hg. clear Hc cm.
  cbn [capRe pattern ignoreCase cat fold_right] in Hm.
  apply cap_tail_inv in Hm.
  destruct Hm as (v' & tl & st' & Hr & Hshape & Hc & [= ->]).
  cbn [rest caps] in Hr, Hc.
  rewrite Hc in Hg. cbn [lookup Nat.eqb] in Hg. injection Hg as <-.
  rewrite Ht, Hs, Hr.
  replace (a ++ (pre ++ 36%N :: tl) ++ c)
    with ((a ++ pre) ++ 36%N :: (tl ++ c))
    by (rewrite <- !app_assoc; reflexivity).
  apply cap_values_in. now apply cap_shape_app.
Qed.

Lemma split_nl_head s :
  exists l ls r, split_nl s = l :: ls /\ s = l ++ r.
Proof.
  induction s as [|c s (l & ls & r & Hsplit & Hs)]; simpl.
  - exists [], [], []. auto.
  - destruct (c =? 10)%N.
    + exists [], (split_nl s), (c :: s). auto.
    + rewrite Hsplit. exists (c :: l), ls, r. rewrite Hs at 1. auto.
Qed.

(** Every line of [split('\n')] is a piece of the text. *)
Lemma split_nl_piece s :
  forall line, In line (split_nl s) -> exists a c, s = a ++ line ++ c.
Proof.
  induction s as [|x s IH]; simpl; intros line Hin.
  - destruct Hin as [<-|[]]. exists [], []. reflexivity.
  - destruct (x =? 10)%N.
    + destruct Hin as [<-|Hin].
      * exists [], (x :: s). reflexivity.
      * destruct (IH _ Hin) as (a & c & ->). exists (x :: a), c. reflexivity.
    + destruct (split_nl_head s) as (l & ls & r & Hsplit & Hs).
      rewrite Hsplit in Hin, IH. destruct Hin as [<-|Hin].
      * exists [], r. simpl. now rewrite Hs at 1.
      * destruct (IH line (or_intror Hin)) as (a & c & ->).
        exists (x :: a), c. reflexivity.
Qed.

Lemma no_small_cap_value text v :
  no_small_cap text = true ->
  In v (cap_values text) ->
  Number.le (Number.parseFloat v) Number.two = false.
Proof.
  unfold no_small_cap. rewrite forallb_forall. intros H Hin.
  apply H in Hin. now apply negb_true_iff.
Qed.

(** The market cap of every candidate is the value of a "$<v> billion" of
    the text. *)
Lemma candidate_cap pat responseText i mt t c mc :
  In pat patterns ->
  exec pat responseText i = Some mt ->
  candidate pat mt = (t, c, Some mc) ->
  In mc (cap_values responseText).
Proof.
  intros Hin He Hc.
  assert (H123 : In pat [pattern1; pattern2; pattern3] ->
                 includes (lit "(?=.*") (lit (source pat)) = false ->
                 In mc (cap_values responseText)).
  { intros H3 Hsrc. unfold candidate in Hc. rewrite Hsrc in Hc.
    injection Hc as _ _ Hc.
    destruct (group 3 mt) as [v|] eqn:Hg; [|discriminate].
    injection Hc as <-.
    destruct (@pattern_cap pat responseText i mt v H3 He Hg) as (Hv & ->).
    exact Hv. }
  destruct Hin as [<-|[<-|[<-|[<-|[]]]]].
  - apply H123; [now left | reflexivity].
  - apply H123; [right; now left | reflexivity].
  - apply H123; [right; right; now left | reflexivity].
  - unfold candidate in Hc.
    change (includes (lit "(?=.*") (lit (source pattern4))) with true in Hc.
    cbv iota in Hc.
    destruct (group 3 mt) as [line|] eqn:Hg; [|discriminate].
    destruct (match_ tickerRe line); [|discriminate].
    destruct (match_ (capRe false) line) as [cm|] eqn:Hcm; [|discriminate].
    injection Hc as _ _ Hc.
    destruct (@pattern4_line responseText i mt line He Hg) as (a & c' & Ht).
    eapply capRe_cap; eauto.
Qed.

Lemma fallback_nil now lines :
  (forall line, In line lines -> fallback_line now line [] = []) ->
  fallback now lines [] = [].
Proof.
  induction lines as [|line more IH]; intros H; cbn [fallback]; auto.
  cbn [length Nat.leb]. rewrite H by now left.
  apply IH. intros l Hl. apply H. now right.
Qed.

(** A text without a small cap gives no record. *)
Lemma no_small_cap_no_record now responseText :
  no_small_cap responseText = true ->
  parseStockData now responseText = Some [].
Proof.
  intros Hno. unfold parseStockData.
  destruct (@strategy_pass_keeps now (fun s => s = []) responseText)
    as (out & -> & ->); auto.
  - intros pat i mt s Hin He -> _.
    destruct (accept_cases now (candidate pat mt) [])
      as [E|(t & c & mc & Hc & _ & _ & _ & Hle & _)]; auto.
    pose proof (@candidate_cap pat responseText i mt _ _ _ Hin He Hc) as Hv.
    rewrite (@no_small_cap_value responseText mc Hno Hv) in Hle.
    discriminate.
  - cbn [length Nat.ltb Nat.leb]. f_equal. apply fallback_nil.
    intros line Hin.
    destruct (fallback_line_cases now line [])
      as [E|(tm & cm & t & mc & _ & Hcm & _ & Hmc & Hle & _)]; auto.
    destruct (@split_nl_piece responseText line Hin) as (a & c & Ht).
    pose proof (@capRe_cap true responseText a line c cm mc Ht Hcm Hmc)
      as Hv.
    rewrite (@no_small_cap_value responseText mc Hno Hv) in Hle.
    discriminate.
Qed.

(** *** Groups that are always defined *)

(** The groups the parser reads always take part in the match, so
    [match[3]], [tickerMatch[1]] and [capMatch[1]] are never [undefined]. *)
Lemma tickerRe_defined line tm :
  match_ tickerRe line = Some tm -> group 1 tm <> None.
Proof.
  intros Hm. apply match_inv in Hm.
  destruct Hm as (rst & p & pv & st & Hm & Hc & _ & _).
  unfold group. rewrite Hc. clear Hc tm.
  cbn [tickerRe pattern ignoreCase cat fold_right] in Hm.
  apply seq_trace in Hm. destruct Hm as (st1 & w1 & Hm & _).
  rewrite m_seq in Hm. apply group_rep_inv in Hm; [|intros h [= <-]; lia].
  destruct Hm as (w & st2 & _ & _ & _ & Hc2 & _ & Hk).
  apply m_caps in Hk. destruct Hk as (st' & new & [= ->] & Hc & Hn).
  rewrite Hc, Hc2, (@lookup_skip 1 _ _ _ Hn).
  - cbn [lookup Nat.eqb]. discriminate.
  - vm_compute. tauto.
Qed.

Lemma capRe_defined icase line cm :
  match_ (capRe icase) line = Some cm -> group 1 cm <> None.
Proof.
  intros Hm. apply exec_suffix in Hm.
  destruct Hm as (pre & rst & p & pv & st & _ & Hm & Hc).
  unfold group. rewrite Hc. clear Hc cm.
  cbn [capRe pattern ignoreCase cat fold_right] in Hm.
  apply cap_tail_inv in Hm.
  destruct Hm as (v & tl & st' & _ & _ & Hc & [= ->]).
  rewrite Hc. cbn [lookup Nat.eqb]. discriminate.
Qed.

Lemma pattern4_defined responseText i mt :
  exec pattern4 responseText i = Some mt -> group 3 mt <> None.
Proof.
  intros He. apply exec_suffix in He.
  destruct He as (pre & rst & p & pv & st & _ & Hm & Hc).
  unfold group. rewrite Hc. clear Hc mt.
  cbn [pattern4 pattern ignoreCase] in Hm.
  unfold cat at 1 in Hm. cbn [fold_right] in Hm.
  rewrite m_seq in Hm. apply look_inv in Hm. destruct Hm as (cp1 & Hm).
  rewrite m_seq in Hm. apply look_inv in Hm. destruct Hm as (cp2 & Hm).
  rewrite m_seq in Hm. apply group_rep_inv in Hm; [|discriminate].
  destruct Hm as (w & st3 & _ & _ & _ & Hc3 & _ & Hk).
  cbn [m] in Hk. injection Hk as <-.
  rewrite Hc3. cbn [lookup Nat.eqb]. discriminate.
Qed.

(** *** Parenthetical fragments *)

































End PatternFacts.

(** ** The claims about the record parser *)

Import JS RegExp RegExpFacts ClassFacts Parser ParserFacts LoopFacts Shapes.
Import PatternFacts.

Lemma parseStockData_capital_letters now responseText :
  exists out, parseStockData now responseText = Some out /\
              Forall capital_letters out.
Proof.
  apply (@parseStockData_keeps now (Forall capital_letters));
    [| |constructor].
  - intros pat i mt s _ _ Hs _.
    destruct (accept_cases now (candidate pat mt) s)
      as [->|(t & c & mc & _ & _ & _ & _ & _ & _ & ->)]; auto.
    apply Forall_app. split; auto. constructor; [|constructor].
    apply delete_nonLetter.
  - intros line s Hs _.
    destruct (fallback_line_cases now line s)
      as [->|(tm & cm & t & mc & Htm & _ & Ht & _ & _ & _ & ->)]; auto.
    apply Forall_app. split; auto. constructor; [|constructor].
    destruct (tickerRe_capture _ Htm Ht) as (_ & Hup). exact Hup.
Qed.

(** C2 fails on the code.  A ticker holds capital letters only, but it can
    be empty or longer than five letters: the patterns carry the flag [i],
    so a lower-case token is taken as a ticker and normalised to the empty
    string; and the second pattern reads its company group as the ticker,
    which can leave more than five letters. *)
Theorem C2_ticker_shape_broken (now : nat -> str) (responseText : str) :
  (exists out, parseStockData now responseText = Some out /\
               Forall capital_letters out) /\
  parseStockData now (lit "abc (Example Corp) ... $1.5 billion") =
    Some [{| ticker := []; company := lit "Example Corp";
             marketCap := lit "$1.5B"; extractedAt := now 0 |}] /\
  (exists out,
      parseStockData now
        (lit "INTERNATIONAL BUSINESS MACHINES (IBM) $1.5 billion") = Some out
      /\ map ticker out =
           [lit "HINES"; lit "INTERNATIONALBUSINESSMACHINES"; lit "IBM"]).
Proof.
  split; [apply parseStockData_capital_letters|]. split.
  - vm_compute. reflexivity.
  - eexists. split; [vm_compute; reflexivity|]. vm_compute. reflexivity.
Qed.

Lemma parseStockData_small_caps now responseText :
  exists out, parseStockData now responseText = Some out /\
              Forall small_cap out.
Proof.
  apply (@parseStockData_keeps now (Forall small_cap)); [| |constructor].
  - intros pat i mt s _ _ Hs _.
    destruct (accept_cases now (candidate pat mt) s)
      as [->|(t & c & mc & _ & _ & _ & _ & Hle & _ & ->)]; auto.
    apply Forall_app. split; auto. constructor; [|constructor].
    exists mc. auto.
  - intros line s Hs _.
    destruct (fallback_line_cases now line s)
      as [->|(tm & cm & t & mc & _ & _ & _ & _ & Hle & _ & ->)]; auto.
    apply Forall_app. split; auto. constructor; [|constructor].
    exists mc. auto.
Qed.

(** C3, as the code has it: every record returned has a market cap of the
    shape [$<value>B] whose value [parseFloat] puts at 2.0 or below; a text in
    which no "$<v> billion" has such a value yields no record at all; and
    "Example Corp (XYZ) ... $2.5 billion" on its own is such a text. *)
Theorem C3_small_cap_filter (now : nat -> str) (responseText : str) :
  (exists out, parseStockData now responseText = Some out /\
               Forall small_cap out) /\
  (no_small_cap responseText = true ->
   parseStockData now responseText = Some []) /\
  no_small_cap (lit "Example Corp (XYZ) ... $2.5 billion") = true /\
  parseStockData now (lit "Example Corp (XYZ) ... $2.5 billion") = Some [].
Proof.
  split; [apply parseStockData_small_caps|].
  split; [apply no_small_cap_no_record|].
  split; vm_compute; reflexivity.
Qed.

(** The theorem at work on a text with a cap of 2.5 and one of 3. *)
Lemma C3_small_cap_filter_witness :
  let text :=
    lit "Example Corp (XYZ) ... $2.5 billion; Other Inc (OTH) at $3 Billion"
  in
  cap_values text = [lit "2.5"; lit "3"] /\
  parseStockData Samples.clock text = Some [].
Proof.
  intros text. split; [vm_compute; reflexivity|].
  destruct (C3_small_cap_filter Samples.clock text) as (_ & Hnone & _).
  apply Hnone. vm_compute. reflexivity.
Defined.

(** C3 as stated fails: in this text "Example Corp (XYZ) ... $2.5 billion"
    is the only mention of XYZ, and yet a record for XYZ comes out: the
    free-form-line pattern pairs the first capital-letter token of the line
    with the first cap of the line, "$2 billion". *)
Lemma C3_other_cap_on_the_line :
  let text :=
    lit "Small caps under $2 billion: Example Corp (XYZ) ... $2.5 billion" in
  includes (lit "Example Corp (XYZ) ... $2.5 billion") text = true /\
  occurrences (lit "XYZ") text = 1 /\
  parseStockData Samples.clock text =
    Some [{| ticker := lit "XYZ";
             company := lit "Small caps under : Example Corp  ...";
             marketCap := lit "$2B";
             extractedAt := Samples.clock 0 |}].
Proof.
  vm_compute. repeat split; reflexivity.
Qed.

Lemma NoDup_snoc {A} (l : list A) (a : A) :
  NoDup l -> ~ In a l -> NoDup (l ++ [a]).
Proof.
  intros Hl Ha. induction Hl as [|x l Hx Hl IH]; simpl.
  - constructor; [intros []|constructor].
  - constructor.
    + rewrite in_app_iff. simpl. intros [H|[H|[]]]; [auto|].
      subst. apply Ha. now left.
    + apply IH. intros H. apply Ha. now right.
Qed.

(** C4: no two records of one call share a ticker; a candidate whose
    normalised ticker is already held, from a pattern match or from a line of
    the fallback, leaves the list as it is. *)
Theorem C4_tickers_unique (now : nat -> str) (responseText : str) :
  (exists out, parseStockData now responseText = Some out /\
               NoDup (map ticker out)) /\
  (forall t c mc stocks,
      In (replace_all nonLetterRe t) (map ticker stocks) ->
      accept now (Some t, Some c, Some mc) stocks = stocks) /\
  (forall line tm t stocks,
      match_ tickerRe line = Some tm -> group 1 tm = Some t ->
      In t (map ticker stocks) ->
      fallback_line now line stocks = stocks).
Proof.
  split; [|split].
  - apply (@parseStockData_keeps now (fun s => NoDup (map ticker s)));
      simpl; [| |constructor].
    + intros pat i mt s _ _ Hs _.
      destruct (accept_cases now (candidate pat mt) s)
        as [->|(t & c & mc & _ & _ & _ & _ & _ & Hf & ->)]; auto.
      rewrite map_app. simpl. apply NoDup_snoc; auto.
      now apply find_ticker_None.
    + intros line s Hs _.
      destruct (fallback_line_cases now line s)
        as [->|(tm & cm & t & mc & _ & _ & _ & _ & _ & Hf & ->)]; auto.
      rewrite map_app. simpl. apply NoDup_snoc; auto.
      now apply find_ticker_None.
  - intros t c mc stocks Hin.
    destruct (accept_cases now (Some t, Some c, Some mc) stocks)
      as [E|(t' & c' & mc' & [= <- <- <-] & _ & _ & _ & _ & Hf & _)]; auto.
    now apply find_ticker_Some in Hin.
  - intros line tm t stocks Htm Ht Hin.
    destruct (fallback_line_cases now line stocks)
      as [E|(tm' & cm & t' & mc & Htm' & _ & Ht' & _ & _ & Hf & _)]; auto.
    rewrite Htm in Htm'. injection Htm' as <-.
    rewrite Ht in Ht'. injection Ht' as <-.
    now apply find_ticker_Some in Hin.
Qed.

(** The theorem at work: a second candidate for XYZ is dropped. *)
Lemma C4_tickers_unique_witness :
  let held := {| ticker := lit "XYZ"; company := lit "Example Corp";
                 marketCap := lit "$1.5B"; extractedAt := Samples.clock 0 |} in
  accept Samples.clock
    (Some (lit "XYZ"), Some (lit "Another Corp"), Some (lit "1.1")) [held]
  = [held] /\
  fallback_line Samples.clock (lit "XYZ is worth $1.1 billion") [held]
  = [held].
Proof.
  destruct (C4_tickers_unique Samples.clock (lit "XYZ (Example Corp) ... $1.5 billion"))
    as (_ & Hacc & Hfb).
  split.
  - apply Hacc. vm_compute. left. reflexivity.
  - eapply Hfb.
    + vm_compute. reflexivity.
    + vm_compute. reflexivity.
    + vm_compute. left. reflexivity.
Defined.

Lemma fallback_length_max now lines stocks :
  length (fallback now lines stocks) <= Nat.max 10 (length stocks).
Proof.
  destruct (Nat.le_gt_cases 10 (length stocks)) as [H|H].
  - rewrite fallback_full by assumption. lia.
  - pose proof (@fallback_length now lines stocks). lia.
Qed.

Lemma strategy_pass_length now responseText :
  exists accepted,
    strategy_pass now responseText = Some accepted /\ length accepted <= 15.
Proof.
  apply (@strategy_pass_keeps now (fun s => length s <= 15)); simpl; [|lia].
  intros pat i mt s _ _ _ Hlt.
  destruct (accept_cases now (candidate pat mt) s)
    as [->|(t & c & mc & _ & _ & _ & _ & _ & _ & ->)]; [lia|].
  rewrite length_app. simpl. lia.
Qed.

(** C5: the pattern loops accept at most 15 records; the fallback runs
    exactly when they accepted fewer than 5; the fallback never takes the
    list beyond 10 records; the parser returns at most 15 records, and at
    most 10 when the fallback ran. *)
Theorem C5_record_caps (now : nat -> str) (responseText : str) :
  exists accepted out,
    strategy_pass now responseText = Some accepted /\
    length accepted <= 15 /\
    parseStockData now responseText = Some out /\
    out = (if length accepted <? 5
           then fallback now (split_nl responseText) accepted
           else accepted) /\
    (forall lines stocks,
        length (fallback now lines stocks) <= Nat.max 10 (length stocks)) /\
    length out <= 15 /\
    (if length accepted <? 5 then length out <= 10 else out = accepted).
Proof.
  destruct (strategy_pass_length now responseText) as (accepted & Hs & Hl).
  exists accepted.
  exists (if length accepted <? 5
          then fallback now (split_nl responseText) accepted
          else accepted).
  unfold parseStockData. rewrite Hs.
  split; [reflexivity|]. split; [exact Hl|].
  split; [destruct (length accepted <? 5); reflexivity|].
  split; [reflexivity|].
  split; [intros; apply fallback_length_max|].
  destruct (length accepted <? 5) eqn:H5.
  - apply Nat.ltb_lt in H5.
    pose proof (fallback_length_max now (split_nl responseText) accepted).
    split; lia.
  - split; [exact Hl | reflexivity].
Qed.






Lemma for_patterns_step now responseText pats pat before :
  incl (pats ++ [pat]) patterns ->
  for_patterns now pats responseText [] = Some before ->
  exists added,
    for_patterns now (pats ++ [pat]) responseText [] = Some (before ++ added).
Proof.
  intros Hincl Hb. rewrite for_patterns_app, Hb.
  destruct (@for_patterns_keeps now (fun _ => True) responseText
              (fun _ _ _ _ _ _ _ _ => I) [pat] before) as (out & Ho & _);
    auto.
  { intros x Hx. apply Hincl, in_or_app. now right. }
  rewrite Ho. apply for_patterns_appends in Ho.
  - destruct Ho as (added & ->). eauto.
  - intros x Hx. apply Hincl, in_or_app. now right.
Qed.

(** C10: the list is in acceptance order.  The records of pattern 1 come
    first, then those of patterns 2, 3 and 4, then those of the fallback, so
    what the pattern loops accepted is a prefix of the result.  Within one
    pattern the record of a match stands before the records of the matches to
    its right, which all start at or after the end of that match.  The
    fallback takes its lines in order and only ever adds at the end. *)
Theorem C10_acceptance_order (now : nat -> str) (responseText : str) :
  (exists s1 s2 s3 s4 fb,
      for_patterns now [pattern1] responseText [] = Some s1 /\
      for_patterns now [pattern1; pattern2] responseText []
        = Some (s1 ++ s2) /\
      for_patterns now [pattern1; pattern2; pattern3] responseText []
        = Some (s1 ++ s2 ++ s3) /\
      strategy_pass now responseText = Some (s1 ++ s2 ++ s3 ++ s4) /\
      parseStockData now responseText
        = Some ((s1 ++ s2 ++ s3 ++ s4) ++ fb)) /\
  (forall pat fuel i stocks mt out,
      In pat patterns ->
      exec pat responseText i = Some mt ->
      length stocks < 15 ->
      while_exec now (S fuel) pat responseText i stocks = Some out ->
      i <= index mt /\ index mt < lastIndex mt /\
      while_exec now fuel pat responseText (lastIndex mt)
        (accept now (candidate pat mt) stocks) = Some out /\
      exists later, out = accept now (candidate pat mt) stocks ++ later) /\
  (forall lines1 lines2 stocks,
      fallback now (lines1 ++ lines2) stocks
      = fallback now lines2 (fallback now lines1 stocks)) /\
  (forall lines stocks,
      exists added, fallback now lines stocks = stocks ++ added).
Proof.
  split; [|split; [|split]].
  - destruct (@for_patterns_step now responseText [] pattern1 [])
      as (s1 & H1); [vm_compute; tauto | reflexivity |].
    destruct (@for_patterns_step now responseText [pattern1] pattern2 s1)
      as (s2 & H2); [vm_compute; tauto | exact H1 |].
    destruct (@for_patterns_step now responseText [pattern1; pattern2]
                pattern3 (s1 ++ s2))
      as (s3 & H3); [vm_compute; tauto | exact H2 |].
    destruct (@for_patterns_step now responseText
                [pattern1; pattern2; pattern3] pattern4 ((s1 ++ s2) ++ s3))
      as (s4 & H4); [vm_compute; tauto | exact H3 |].
    cbn [app] in H1, H2, H3, H4.
    assert (Hs : strategy_pass now responseText
                 = Some (s1 ++ s2 ++ s3 ++ s4)).
    { unfold strategy_pass, patterns. rewrite H4.
      now rewrite <- !app_assoc. }
    exists s1, s2, s3, s4.
    unfold parseStockData. rewrite Hs.
    destruct (length (s1 ++ s2 ++ s3 ++ s4) <? 5).
    + destruct (fallback_appends now (split_nl responseText)
                  (s1 ++ s2 ++ s3 ++ s4)) as (fb & ->).
      exists fb. rewrite <- !app_assoc in *. repeat split; auto.
    + exists []. rewrite app_nil_r. rewrite <- !app_assoc in *.
      repeat split; auto.
  - intros pat fuel i stocks mt out Hin He Hlt Hw.
    pose proof (exec_bounds _ _ _ He) as (Hidx & Hlen & Hend).
    pose proof (patterns_minlen Hin) as Hmin.
    cbn [while_exec] in Hw. rewrite He in Hw.
    apply Nat.ltb_lt in Hlt. rewrite Hlt in Hw.
    repeat split; try lia; auto.
    eapply while_exec_appends; eauto.
  - intros. apply fallback_app.
  - intros. apply fallback_appends.
Qed.

(** The theorem at work on a text with two matches of the first pattern. *)
Lemma C10_acceptance_order_witness :
  let text := lit "AB (Alpha) $1 billion, CD (Gamma) $2 billion" in
  exists mt out,
    exec pattern1 text 0 = Some mt /\
    while_exec Samples.clock 45 pattern1 text 0 [] = Some out /\
    index mt = 0 /\ lastIndex mt = 21 /\
    map ticker out = [lit "AB"; lit "CD"].
Proof.
  intros text.
  destruct (exec pattern1 text 0) as [mt|] eqn:He;
    [|vm_compute in He; discriminate].
  destruct (while_exec Samples.clock 45 pattern1 text 0 []) as [out|] eqn:Hw;
    [|vm_compute in Hw; discriminate].
  exists mt, out.
  destruct (C10_acceptance_order Samples.clock text) as (_ & Hord & _).
  destruct (Hord pattern1 44 0 [] mt out) as (_ & _ & _ & later & Hout).
  - left. reflexivity.
  - exact He.
  - simpl. lia.
  - exact Hw.
  - vm_compute in He. injection He as <-.
    vm_compute in Hw. injection Hw as <-.
    repeat split; reflexivity.
Defined.

(** ** The claim about the dataset writer *)

Import Bot.

(** C7 fails on the code.  Two calls of [saveToCSV] on a data file that does
    not exist yet leave the rows of the two batches, in order, and nothing
    else: the writer is made with [append: true], which never writes the
    header line, so the file has no header at all. *)
Theorem C7_header_never_written (batch1 batch2 : list StockRecord) :
  (exists st,
      (saveToCSV Samples.env_ok batch1 ;;; saveToCSV Samples.env_ok batch2)
        constructor = Some (inl tt, st) /\
      csvFile st = Some (CsvWriter.stringifyRecords batch1 ++
                         CsvWriter.stringifyRecords batch2)) /\
  (let xyz := {| ticker := lit "XYZ"; company := lit "Example Corp";
                 marketCap := lit "$1.5B";
                 extractedAt := lit "2024-01-01T00:00:00.000Z" |} in
   let abc := {| ticker := lit "ABC"; company := lit "Alpha Inc";
                 marketCap := lit "$0.9B";
                 extractedAt := lit "2024-01-01T06:00:00.000Z" |} in
   exists st content,
     (saveToCSV Samples.env_ok [xyz] ;;; saveToCSV Samples.env_ok [abc])
       constructor = Some (inl tt, st) /\
     csvFile st = Some content /\
     content =
       lit "XYZ,Example Corp,$1.5B,2024-01-01T00:00:00.000Z"
       ++ [CsvWriter.newline]
       ++ lit "ABC,Alpha Inc,$0.9B,2024-01-01T06:00:00.000Z"
       ++ [CsvWriter.newline] /\
     occurrences CsvWriter.headerString content = 0).
Proof.
  split.
  - eexists. split; reflexivity.
  - eexists. eexists. split; [reflexivity|].
    split; [reflexivity|]. split; vm_compute; reflexivity.
Qed.

(** ** The claims about the orchestrator *)

Module BotFacts.
Import JS Parser ParserFacts Bot.

Lemma queryPerplexity_state env st :
  exists outcome, queryPerplexity env st = Some (outcome, st).
Proof.
  unfold queryPerplexity, try_catch, bind, await, ret, throw.
  destruct (goto env); eauto.
  destruct (waitForSelector env); eauto.
  destruct (type env); eauto.
  destruct (press env); eauto.
  destruct (waitForTimeout env); eauto.
  destruct (evaluate env); eauto.
Qed.

(** What [ensureSession] leaves: the session at hand, or the one of a new
    launch, or none when the launch failed. *)
Lemma ensureSession_cases env st :
  exists outcome st1,
    ensureSession env st = Some (outcome, st1) /\
    csvFile st1 = csvFile st /\ closed st1 = closed st /\
    match browser st with
    | Some b => outcome = inl tt /\ st1 = st
    | None =>
        launches st1 = S (launches st) /\
        (browser st1 = None \/ browser st1 = Some (launches st)) /\
        (outcome = inl tt -> browser st1 = Some (launches st))
    end.
Proof.
  unfold ensureSession, bind, get.
  destruct (browser st) as [b|] eqn:Hb.
  - exists (inl tt), st. unfold ret. auto.
  - unfold initBrowser, bind, puppeteer_launch, set_browser, set_page,
      await, ret, throw.
    destruct (launch env).
    + eexists; eexists. split; [reflexivity|]. cbn.
      repeat split; auto. discriminate.
    + destruct (newPage env).
      * eexists; eexists. split; [reflexivity|]. cbn.
        repeat split; auto.
      * destruct (setUserAgent env).
        -- eexists; eexists. split; [reflexivity|]. cbn.
           repeat split; auto.
        -- eexists; eexists. split; [reflexivity|]. cbn.
           repeat split; auto.
Qed.

(** The handler of [runQuery]: the browser at hand is closed and the handle
    cleared. *)
Lemma teardown message st :
  (st' <- get ;;
   match browser st' with
   | Some b => browser_close b ;;; set_browser None
   | None => ret tt
   end ;;;
   ret (failure message)) st
  = Some (inl (failure message),
          match browser st with
          | Some b =>
              {| browser := None; page := page st; launches := launches st;
                 closed := b :: closed st; csvFile := csvFile st |}
          | None => st
          end).
Proof.
  unfold bind, get, browser_close, set_browser, ret.
  destruct (browser st); reflexivity.
Qed.

(** [runQuery] always returns a result; it launches a browser exactly when
    it holds none; afterwards it holds no browser, the one it held, or the
    one it launched; and it never writes the data file when it fails. *)
Lemma runQuery_returns env st :
  exists result st',
    runQuery env st = Some (inl result, st') /\
    launches st' =
      launches st + match browser st with Some _ => 0 | None => 1 end /\
    (browser st' = None \/ browser st' = browser st \/
     (browser st = None /\ browser st' = Some (launches st))) /\
    (success result = false -> csvFile st' = csvFile st).
Proof.
  destruct (ensureSession_cases env st)
    as (o1 & st1 & He & Hcsv & Hcl & Hb).
  destruct (queryPerplexity_state env st1) as (o2 & Hq).
  assert (Hl : launches st1 =
               launches st + match browser st with Some _ => 0 | None => 1 end).
  { destruct (browser st); destruct Hb as (H1 & H2); try subst st1; lia. }
  assert (Hn : browser st1 = None \/ browser st1 = browser st \/
               (browser st = None /\ browser st1 = Some (launches st))).
  { destruct (browser st) eqn:E.
    - destruct Hb as (_ & ->). auto.
    - destruct Hb as (_ & [H|H] & _); auto. }
  clear Hb.
  assert (Hcatch : forall message,
    exists st',
      (st0 <- get ;;
       match browser st0 with
       | Some b => browser_close b ;;; set_browser None
       | None => ret tt
       end ;;;
       ret (failure message)) st1 = Some (inl (failure message), st') /\
      launches st' =
        launches st + match browser st with Some _ => 0 | None => 1 end /\
      (browser st' = None \/ browser st' = browser st \/
       (browser st = None /\ browser st' = Some (launches st))) /\
      csvFile st' = csvFile st).
  { intros message. rewrite teardown.
    set (st' := match browser st1 with Some _ => _ | None => _ end).
    assert (H : launches st' = launches st1 /\ csvFile st' = csvFile st1 /\
                (browser st' = None \/ browser st' = browser st1)).
    { subst st'. destruct (browser st1) eqn:E; cbn; auto. }
    destruct H as (H1 & H2 & H3).
    exists st'. split; [reflexivity|].
    rewrite H1, H2. repeat split; auto.
    destruct H3 as [->| ->]; auto. }
  unfold runQuery, try_catch. unfold bind at 1. rewrite He.
  destruct o1 as [[]|e1].
  - unfold bind at 1. rewrite Hq.
    destruct o2 as [responseText|e2].
    + unfold bind at 1.
      destruct (length responseText <? 100).
      * unfold throw at 1.
        destruct (Hcatch (lit "Response too short or empty"))
          as (st' & H0 & H1 & H2 & H3).
        exists (failure (lit "Response too short or empty")), st'.
        split; [exact H0 | auto].
      * unfold ret at 1. unfold bind at 1. unfold parse.
        destruct (parseStockData_total (now env) responseText)
          as (records & ->).
        destruct (0 <? length records).
        -- unfold saveToCSV, bind, await.
           destruct (writeFile env) as [e3|].
           ++ unfold throw at 1.
              destruct (Hcatch e3) as (st' & H0 & H1 & H2 & H3).
              exists (failure e3), st'. split; [exact H0 | auto].
           ++ unfold ret. eexists; eexists. split; [reflexivity|].
              cbn. repeat split; auto. discriminate.
        -- unfold ret. eexists; eexists. split; [reflexivity|].
           cbn. repeat split; auto.
    + destruct (Hcatch e2) as (st' & H0 & H1 & H2 & H3).
      exists (failure e2), st'. split; [exact H0 | auto].
  - destruct (Hcatch e1) as (st' & H0 & H1 & H2 & H3).
    exists (failure e1), st'. split; [exact H0 | auto].
Qed.

(** The handle a bot holds always comes from a launch that has happened:
    this is true of the bot its constructor makes, and every run keeps it. *)
Lemma handle_known_constructor : handle_known constructor.
Proof. exact I. Qed.

Lemma handle_known_runQuery env st result st' :
  handle_known st ->
  runQuery env st = Some (inl result, st') ->
  handle_known st'.
Proof.
  intros Hk Hr.
  destruct (runQuery_returns env st) as (r & s & Hr' & Hl & Hb & _).
  rewrite Hr in Hr'. injection Hr' as <- <-.
  unfold handle_known in *.
  destruct Hb as [->|[Hb|(Hn & ->)]]; auto.
  - rewrite Hb. destruct (browser st); auto. lia.
  - rewrite Hn in Hl. lia.
Qed.

End BotFacts.

Import BotFacts.








(** * Further properties *)

(** ** Runs of the orchestrator, case by case *)

Module RunFacts.
Import JS Parser ParserFacts Bot BotFacts Shapes MoreShapes.

(** What [runQuery] returns and leaves, by the outcome of its steps. *)
Lemma runQuery_cases env st :
  exists o1 st1 o2,
    ensureSession env st = Some (o1, st1) /\
    queryPerplexity env st1 = Some (o2, st1) /\
    runQuery env st =
      match o1, o2 with
      | inr e, _ => Some (inl (failure e), torn_down st1)
      | inl _, inr e => Some (inl (failure e), torn_down st1)
      | inl _, inl text =>
          if length text <? 100
          then Some (inl (failure (lit "Response too short or empty")),
                     torn_down st1)
          else
            match parseStockData (now env) text with
            | Some [] =>
                Some (inl (failure (lit "No stocks extracted")), st1)
            | Some records =>
                match writeFile env with
                | Some e => Some (inl (failure e), torn_down st1)
                | None => Some (inl (succeeded records), saved records st1)
                end
            | None => None
            end
      end.
Proof.
  destruct (ensureSession_cases env st) as (o1 & st1 & He & _).
  destruct (queryPerplexity_state env st1) as (o2 & Hq).
  exists o1, st1, o2. split; [exact He|]. split; [exact Hq|].
  unfold runQuery, try_catch. unfold bind at 1. rewrite He.
  destruct o1 as [[]|e1].
  - unfold bind at 1. rewrite Hq.
    destruct o2 as [text|e2].
    + unfold bind at 1.
      destruct (length text <? 100).
      * unfold throw at 1. apply teardown.
      * unfold ret at 1. unfold bind at 1. unfold parse.
        destruct (parseStockData (now env) text) as [[|r records]|];
          [reflexivity| |reflexivity].
        cbn [length Nat.ltb Nat.leb].
        unfold saveToCSV. unfold bind at 1. unfold bind at 1.
        destruct (writeFile env) as [e3|].
        -- unfold await, throw. apply teardown.
        -- reflexivity.
    + apply teardown.
  - apply teardown.
Qed.

Lemma queryPerplexity_text env st text st' :
  queryPerplexity env st = Some (inl text, st') ->
  goto env = None /\ waitForSelector env = None /\ type env = None /\
  press env = None /\ waitForTimeout env = None /\ evaluate env = inr text.
Proof.
  unfold queryPerplexity, try_catch, bind, await, ret, throw.
  destruct (goto env) eqn:E1; [discriminate|].
  destruct (waitForSelector env) eqn:E2; [discriminate|].
  destruct (type env) eqn:E3; [discriminate|].
  destruct (press env) eqn:E4; [discriminate|].
  destruct (waitForTimeout env) eqn:E5; [discriminate|].
  destruct (evaluate env) eqn:E6; [discriminate|].
  intros [= -> _]. auto 10.
Qed.

End RunFacts.

(** ** More about the parser *)

Module ParserMore.
Import JS RegExp RegExpFacts ClassFacts Parser ParserFacts LoopFacts Shapes.
Import PatternFacts MoreShapes.

Lemma span_parts f s : s = fst (span f s) ++ snd (span f s).
Proof.
  induction s as [|c s IH]; simpl; auto.
  destruct (f c); simpl; auto.
  destruct (span f s) as (a, b). simpl in *. now rewrite IH at 1.
Qed.

Lemma span_all f s : Forall (fun c => f c = true) (fst (span f s)).
Proof.
  induction s as [|c s IH]; simpl; auto.
  destruct (f c) eqn:E; simpl; auto.
  destruct (span f s) as (a, b). simpl in *. auto.
Qed.

Lemma startsWith_app p s : startsWith p (p ++ s) = true.
Proof.
  induction p as [|c p IH]; simpl; auto. now rewrite N.eqb_refl.
Qed.

Lemma includes_app p a s : includes p s = true -> includes p (a ++ s) = true.
Proof.
  induction a as [|c a IH]; simpl; auto. intros H.
  rewrite (IH H). apply orb_true_r.
Qed.

Lemma includes_start p s : startsWith p s = true -> includes p s = true.
Proof. destruct s; simpl; intros ->; reflexivity. Qed.

Lemma billion_ahead_starts s :
  billion_ahead s = true ->
  startsWith (lit "billion") (map to_lower s) = true.
Proof.
  unfold billion_ahead. rewrite str_eqb_true. intros H.
  rewrite <- (firstn_skipn 7 s), map_app, H. apply startsWith_app.
Qed.

(** A cap value is made of digits and dots, at least one, and is followed
    by the word "billion". *)
Lemma cap_here_value s v :
  cap_here s = Some v ->
  v <> [] /\ Forall (fun c => is_digit_dot c = true) v /\
  includes (lit "billion") (map to_lower s) = true.
Proof.
  unfold cap_here.
  pose proof (span_parts is_digit_dot s) as Hs.
  pose proof (span_all is_digit_dot s) as Hv.
  destruct (span is_digit_dot s) as (v0, r1). simpl in Hs, Hv.
  pose proof (span_parts is_space r1) as Hr.
  destruct (span is_space r1) as (ws, r2). simpl in Hr.
  destruct v0 as [|c v0]; [discriminate|].
  destruct (billion_ahead r2) eqn:Hb; [|discriminate].
  intros [= <-]. split; [discriminate|]. split; [exact Hv|].
  rewrite Hs, Hr, !map_app. apply includes_app, includes_app.
  apply includes_start. now apply billion_ahead_starts.
Qed.

Lemma cap_values_value text v :
  In v (cap_values text) ->
  v <> [] /\ Forall (fun c => is_digit_dot c = true) v /\
  existsb (fun c => (c =? 36)%N) text = true /\
  includes (lit "billion") (map to_lower text) = true.
Proof.
  induction text as [|c text IH]; simpl; [intros []|].
  intros H. apply in_app_or in H. destruct H as [H|H].
  - destruct (c =? 36)%N eqn:E; [|destruct H].
    destruct (cap_here text) as [v'|] eqn:Hc; [|destruct H].
    destruct H as [<-|[]].
    destruct (@cap_here_value text v' Hc) as (H1 & H2 & H3).
    split; [exact H1|]. split; [exact H2|]. split; [reflexivity|].
    rewrite H3. apply orb_true_r.
  - destruct (IH H) as (H1 & H2 & H3 & H4).
    split; [exact H1|]. split; [exact H2|]. split.
    + rewrite H3. apply orb_true_r.
    + rewrite H4. apply orb_true_r.
Qed.

Lemma cap_values_none text :
  existsb (fun c => (c =? 36)%N) text = false \/
  includes (lit "billion") (map to_lower text) = false ->
  cap_values text = [].
Proof.
  intros H. destruct (cap_values text) as [|v vs] eqn:E; auto.
  destruct (@cap_values_value text v) as (_ & _ & H1 & H2).
  { rewrite E. now left. }
  destruct H as [H|H]; congruence.
Qed.

Section WithClock.
Variable now : nat -> str.

(** X1: a text without a dollar sign, or without the word "billion" in any
    case, gives no record; the empty text is one. *)
Theorem X1_no_dollar_no_record (responseText : str) :
  existsb (fun c => (c =? 36)%N) responseText = false \/
  includes (lit "billion") (map to_lower responseText) = false ->
  parseStockData now responseText = Some [].
Proof.
  intros H. apply no_small_cap_no_record.
  unfold no_small_cap. now rewrite (@cap_values_none responseText H).
Qed.

(** The fallback keeps what every line of its list keeps. *)
Lemma fallback_keeps_lines (P : list StockRecord -> Prop) lines :
  (forall line stocks,
      In line lines -> P stocks -> P (fallback_line now line stocks)) ->
  forall stocks, P stocks -> P (fallback now lines stocks).
Proof.
  induction lines as [|line more IH]; intros H stocks HP; cbn [fallback];
    auto.
  destruct (10 <=? length stocks); auto.
  apply IH.
  - intros l s Hl. apply H. now right.
  - apply H; auto. now left.
Qed.

(** What the parser keeps, when the fallback is asked about the lines of
    the text only. *)
Lemma parseStockData_keeps_lines (P : list StockRecord -> Prop)
    responseText :
  (forall pat i mt stocks,
      In pat patterns -> exec pat responseText i = Some mt ->
      P stocks -> P (accept now (candidate pat mt) stocks)) ->
  (forall line stocks,
      In line (split_nl responseText) -> P stocks ->
      P (fallback_line now line stocks)) ->
  P [] ->
  exists out, parseStockData now responseText = Some out /\ P out.
Proof.
  intros Ha Hf H0. unfold parseStockData.
  destruct (@strategy_pass_keeps now P responseText) as (s & -> & HP);
    auto.
  { intros. eapply Ha; eauto. }
  destruct (length s <? 5); eauto.
  eexists. split; [reflexivity|]. now apply fallback_keeps_lines.
Qed.

(** X2: the market cap of every record is the value of a "$<v> billion"
    that stands in the text: one or more digits and dots after a dollar
    sign, then white space if any, then the word "billion". *)
Theorem X2_caps_come_from_the_text (responseText : str) :
  exists out,
    parseStockData now responseText = Some out /\
    Forall (cap_from responseText) out /\
    Forall (fun v => v <> [] /\ Forall (fun c => is_digit_dot c = true) v)
      (cap_values responseText).
Proof.
  destruct (@parseStockData_keeps_lines (Forall (cap_from responseText))
              responseText) as (out & Hp & Hout).
  - intros pat i mt s Hin He Hs.
    destruct (accept_cases now (candidate pat mt) s)
      as [->|(t & c & mc & Hc & _ & _ & _ & _ & _ & ->)]; auto.
    apply Forall_app. split; auto. constructor; [|constructor].
    exists mc. split; [reflexivity|].
    eapply candidate_cap; eauto.
  - intros line s Hin Hs.
    destruct (fallback_line_cases now line s)
      as [->|(tm & cm & t & mc & _ & Hcm & _ & Hmc & _ & _ & ->)]; auto.
    apply Forall_app. split; auto. constructor; [|constructor].
    exists mc. split; [reflexivity|].
    destruct (@split_nl_piece responseText line Hin) as (a & c & Ht).
    eapply capRe_cap; eauto.
  - constructor.
  - exists out. split; [exact Hp|]. split; [exact Hout|].
    apply Forall_forall. intros v Hv.
    destruct (@cap_values_value responseText v Hv) as (H1 & H2 & _). auto.
Qed.

Lemma stamped_snoc stocks r :
  stamped now stocks -> extractedAt r = now (length stocks) ->
  stamped now (stocks ++ [r]).
Proof.
  unfold stamped. intros Hs Hr.
  rewrite map_app, length_app, seq_app, map_app, Hs. simpl. now rewrite Hr.
Qed.

(** X3: records are only ever pushed at the end, never removed or moved:
    the record at position [i] of the result carries the reading the clock
    gave when [i] records were held, so the time stamps stand in the order
    in which the records were accepted. *)
Theorem X3_records_stamped_in_order (responseText : str) :
  exists out,
    parseStockData now responseText = Some out /\
    map extractedAt out = map now (seq 0 (length out)).
Proof.
  apply (@parseStockData_keeps now (stamped now)).
  - intros pat i mt s _ _ Hs _.
    destruct (accept_cases now (candidate pat mt) s)
      as [->|(t & c & mc & _ & _ & _ & _ & _ & _ & ->)]; auto.
    now apply stamped_snoc.
  - intros line s Hs _.
    destruct (fallback_line_cases now line s)
      as [->|(tm & cm & t & mc & _ & _ & _ & _ & _ & _ & ->)]; auto.
    now apply stamped_snoc.
  - reflexivity.
Qed.

(** [replace(/[^A-Z]/g, '')] leaves a string of capital letters as it
    is. *)
Lemma delete_nonLetter_id :
  forall rst p pv,
    Forall (fun c => is_upper c = true) rst ->
    delete_matches nonLetterRe rst p pv 0 = rst.
Proof.
  induction rst as [|x tl IH]; intros p pv H; cbn [delete_matches]; auto.
  inversion H as [|? ? Hx Htl]; subst.
  unfold match_here.
  cbn [nonLetterRe pattern ignoreCase m rest pos prev caps].
  rewrite cmatch_notAZ, Hx. cbn [negb]. now rewrite IH.
Qed.

Lemma fallback_line_record stocks line :
  fallback_line now line stocks = stocks \/
  exists r, fallback_line now line stocks = stocks ++ [r] /\
            fallback_record r /\ ~ In (ticker r) (map ticker stocks).
Proof.
  destruct (fallback_line_cases now line stocks)
    as [->|(tm & cm & t & mc & Htm & _ & Ht & _ & Hle & Hf & ->)]; auto.
  right. eexists. split; [reflexivity|].
  destruct (tickerRe_capture _ Htm Ht) as (Hlen & Hup).
  split; [|now apply find_ticker_None].
  repeat split; cbn [ticker company]; auto; try lia.
  exists mc. auto.
Qed.

(** X4: what the fallback adds.  It leaves the records it is given where
    they are and adds at most one record for a line; every record it adds
    has a ticker of two to five capital letters that no earlier record has,
    the company "Company for <ticker>" and a small cap.  The ticker that the
    fourth pattern gives is of the same kind. *)
Theorem X4_fallback_records (lines : list str) (stocks : list StockRecord) :
  (exists added,
      fallback now lines stocks = stocks ++ added /\
      Forall fallback_record added /\
      length added <= length lines /\
      NoDup (map ticker added) /\
      Forall (fun r => ~ In (ticker r) (map ticker stocks)) added) /\
  (forall mt,
      accept now (candidate pattern4 mt) stocks = stocks \/
      exists r,
        accept now (candidate pattern4 mt) stocks = stocks ++ [r] /\
        2 <= length (ticker r) <= 5 /\ capital_letters r).
Proof.
  split.
  - revert stocks. induction lines as [|line more IH]; intros stocks;
      cbn [fallback].
    + exists []. rewrite app_nil_r.
      repeat split; auto; try constructor.
    + destruct (10 <=? length stocks).
      * exists []. rewrite app_nil_r.
        repeat split; auto; try constructor; simpl; try lia.
      * destruct (fallback_line_record stocks line)
          as [->|(r & -> & Hr & Hnew)].
        -- destruct (IH stocks) as (added & -> & Hall & Hlen & Hnd & Hout).
           exists added. repeat split; auto. simpl. lia.
        -- destruct (IH (stocks ++ [r]))
             as (added & -> & Hall & Hlen & Hnd & Hout).
           exists (r :: added). rewrite <- app_assoc.
           split; [reflexivity|]. split; [now constructor|].
           split; [simpl; lia|]. split.
           ++ cbn [map]. constructor; auto. intros Hin.
              apply in_map_iff in Hin. destruct Hin as (r' & E & Hr').
              rewrite Forall_forall in Hout.
              apply (Hout r' Hr'). rewrite map_app, in_app_iff, E.
              right. now left.
           ++ constructor; auto.
              eapply Forall_impl; [|exact Hout]. intros r' Hr' Hin.
              apply Hr'. rewrite map_app, in_app_iff. now left.
  - intros mt.
    destruct (accept_cases now (candidate pattern4 mt) stocks)
      as [->|(t & c & mc & Hc & _ & _ & _ & _ & _ & ->)]; auto.
    right. eexists. split; [reflexivity|].
    unfold candidate in Hc.
    change (includes (lit "(?=.*") (lit (source pattern4))) with true in Hc.
    cbv iota in Hc.
    destruct (group 3 mt) as [line|]; [|discriminate].
    destruct (match_ tickerRe line) as [tm|] eqn:Htm; [|discriminate].
    destruct (match_ (capRe false) line); [|discriminate].
    injection Hc as Ht _ _.
    destruct (tickerRe_capture _ Htm Ht) as (Hlen & Hup).
    unfold capital_letters. cbn [ticker]. unfold replace_all.
    rewrite delete_nonLetter_id by assumption. auto.
Qed.

End WithClock.

(** X1 at work: a cap written without the dollar sign. *)
Lemma X1_no_dollar_no_record_witness :
  let text := lit "ABC (Example Corp) is worth 1.5 billion" in
  (existsb (fun c => (c =? 36)%N) text = false \/
   includes (lit "billion") (map to_lower text) = false) /\
  parseStockData Samples.clock text = Some [].
Proof.
  intros text.
  assert (H : existsb (fun c => (c =? 36)%N) text = false \/
              includes (lit "billion") (map to_lower text) = false)
    by (left; vm_compute; reflexivity).
  split; [exact H|].
  apply (@X1_no_dollar_no_record Samples.clock text H).
Defined.

End ParserMore.

(** ** More about the orchestrator *)

Module BotMore.
Import JS Parser ParserFacts LoopFacts Bot BotFacts Shapes MoreShapes.
Import RunFacts.

Lemma parseStockData_bounds now text records :
  parseStockData now text = Some records ->
  length records <= 15 /\ NoDup (map ticker records).
Proof.
  intros Hp.
  destruct (@parseStockData_keeps now
              (fun s => length s <= 15 /\ NoDup (map ticker s)) text)
    as (out & Hout & H).
  - intros pat i mt s _ _ (Hl & Hn) Hlt.
    destruct (accept_cases now (candidate pat mt) s)
      as [->|(t & c & mc & _ & _ & _ & _ & _ & Hf & ->)]; auto.
    rewrite length_app, map_app. simpl. split; [lia|].
    apply NoDup_snoc; auto. now apply find_ticker_None.
  - intros line s (Hl & Hn) Hlt.
    destruct (fallback_line_cases now line s)
      as [->|(tm & cm & t & mc & _ & _ & _ & _ & _ & Hf & ->)]; auto.
    rewrite length_app, map_app. simpl. split; [lia|].
    apply NoDup_snoc; auto. now apply find_ticker_None.
  - simpl. split; [lia | constructor].
  - rewrite Hp in Hout. now injection Hout as ->.
Qed.

(** The two ways a run ends: with a failure, the browser closed or (when no
    record was extracted) kept; or with a success, the records written. *)
Lemma runQuery_outcome env st :
  exists o1 st1 result st',
    ensureSession env st = Some (o1, st1) /\
    runQuery env st = Some (inl result, st') /\
    ((exists message,
         result = failure message /\
         (st' = torn_down st1 \/ (st' = st1 /\ o1 = inl tt))) \/
     (exists text records,
         records <> [] /\ o1 = inl tt /\
         queryPerplexity env st1 = Some (inl text, st1) /\
         100 <= length text /\
         parseStockData (now env) text = Some records /\
         result = succeeded records /\ st' = saved records st1)).
Proof.
  destruct (runQuery_cases env st) as (o1 & st1 & o2 & He & Hq & Hr).
  exists o1, st1.
  destruct o1 as [[]|e1]; [|eexists; eexists; eauto 10].
  destruct o2 as [text|e2]; [|eexists; eexists; eauto 10].
  destruct (length text <? 100) eqn:Hlen; [eexists; eexists; eauto 10|].
  apply Nat.ltb_ge in Hlen.
  destruct (parseStockData_total (now env) text) as (records & Hp).
  rewrite Hp in Hr.
  destruct records as [|r records]; [eexists; eexists; eauto 10|].
  destruct (writeFile env) as [e3|]; [eexists; eexists; eauto 10|].
  eexists; eexists. split; [exact He|]. split; [exact Hr|].
  right. exists text, (r :: records). repeat split; auto. discriminate.
Qed.





(** X5: a run reports success only after it has written.  The answer was
    at least 100 characters long, the parser gave between 1 and 15 records
    with distinct tickers, the result carries these records and their
    number, the data file holds what it held followed by their rows, and the
    browser is kept open. *)
Theorem X5_success_means_written
    (env : Env) (st st' : State) (result : RunResult) :
  runQuery env st = Some (inl result, st') ->
  success result = true ->
  exists text records b,
    evaluate env = inr text /\
    100 <= length text /\
    parseStockData (now env) text = Some records /\
    result = succeeded records /\
    1 <= length records <= 15 /\
    NoDup (map ticker records) /\
    csvFile st' =
      Some (match csvFile st with Some old => old | None => [] end
            ++ CsvWriter.stringifyRecords records) /\
    browser st' = Some b /\
    closed st' = closed st.
Proof.
  intros Hr Hs.
  destruct (runQuery_outcome env st)
    as (o1 & st1 & r & s1 & He & Hr' & Hcase).
  rewrite Hr in Hr'. injection Hr' as <- <-.
  destruct Hcase as [(message & -> & _)|
                     (text & records & Hne & -> & Hq & Hlen & Hp & -> & ->)];
    [discriminate|].
  destruct (queryPerplexity_text _ _ Hq) as (_ & _ & _ & _ & _ & Hev).
  destruct (parseStockData_bounds _ _ Hp) as (Hmax & Hnd).
  destruct (ensureSession_cases env st) as (o & s1 & He' & Hcsv & Hcl & Hb).
  rewrite He in He'. injection He' as <- <-.
  assert (Hheld : exists b, browser st1 = Some b).
  { destruct (browser st) as [b|] eqn:E.
    - destruct Hb as (_ & ->). eauto.
    - destruct Hb as (_ & _ & Hb). rewrite (Hb eq_refl). eauto. }
  destruct Hheld as (b & Hheld).
  exists text, records, b. cbn [saved csvFile browser closed].
  rewrite Hcsv, Hcl. repeat split; auto.
  destruct records; [now elim Hne | simpl; lia].
Qed.




(** X5 at work: a run whose every step resolves, on a bot that holds a
    browser and has no data file yet. *)
Lemma X5_success_means_written_witness :
  exists result st' records,
    runQuery Samples.env_ok Samples.st_live = Some (inl result, st') /\
    success result = true /\
    parseStockData Samples.clock Samples.answer = Some records /\
    result = succeeded records /\
    1 <= length records <= 15 /\
    csvFile st' = Some (CsvWriter.stringifyRecords records) /\
    browser st' = Some 0.
Proof.
  assert (H : exists result st',
            runQuery Samples.env_ok Samples.st_live = Some (inl result, st') /\
            success result = true /\ browser st' = Some 0).
  { vm_compute. eexists; eexists. repeat split; reflexivity. }
  destruct H as (result & st' & Hr & Hs & Hb).
  destruct (@X5_success_means_written
              Samples.env_ok Samples.st_live st' result Hr Hs)
    as (text & records & b & Hev & _ & Hp & Hres & Hlen & _ & Hcsv & _).
  injection Hev as <-.
  exists result, st', records. auto 10.
Defined.



End BotMore.

(** ** The callers: runs and requests one after the other *)

Module ServerFacts.
Import JS Parser ParserFacts Bot BotFacts Shapes MoreShapes RunFacts BotMore.
Import Server.

















End ServerFacts.

(** ** The text taken from the page *)

Module PageFacts.
Import JS Parser Bot BotFacts Shapes MoreShapes RunFacts Page.

Lemma split_nl_cons s : exists l ls, split_nl s = l :: ls.
Proof.
  destruct s as [|c s]; simpl; eauto.
  destruct (c =? 10)%N; eauto.
  destruct (split_nl s); eauto.
Qed.

Lemma split_nl_app a b :
  split_nl (a ++ 10%N :: b) = split_nl a ++ split_nl b.
Proof.
  induction a as [|c a IH]; simpl; auto.
  destruct (c =? 10)%N; rewrite IH; auto.
  destruct (split_nl_cons a) as (l & ls & ->). reflexivity.
Qed.

Lemma join_nl_cons t t2 more :
  join_nl (t :: t2 :: more) = t ++ 10%N :: join_nl (t2 :: more).
Proof. reflexivity. Qed.

Lemma split_nl_join_nl texts :
  texts <> [] -> split_nl (join_nl texts) = flat_map split_nl texts.
Proof.
  induction texts as [|t [|t2 more] IH]; intros Hne.
  - now elim Hne.
  - simpl. now rewrite app_nil_r.
  - rewrite join_nl_cons, split_nl_app, IH by discriminate.
    reflexivity.
Qed.

Lemma split_nl_line t :
  existsb (fun c => (c =? 10)%N) t = false -> split_nl t = [t].
Proof.
  induction t as [|c t IH]; simpl; auto.
  destruct (c =? 10)%N; [discriminate|]. intros H. now rewrite IH.
Qed.

Lemma flat_map_lines texts :
  Forall (fun t => existsb (fun c => (c =? 10)%N) t = false) texts ->
  flat_map split_nl texts = texts.
Proof.
  induction 1 as [|t texts Ht _ IH]; simpl; auto.
  now rewrite (split_nl_line _ Ht), IH.
Qed.

Lemma join_nl_split_nl s : join_nl (split_nl s) = s.
Proof.
  induction s as [|c s IH]; simpl; auto.
  destruct (c =? 10)%N eqn:E.
  - apply N.eqb_eq in E. subst c.
    destruct (split_nl_cons s) as (l & ls & Hs). rewrite Hs in *.
    rewrite join_nl_cons, IH. reflexivity.
  - destruct (split_nl_cons s) as (l & ls & Hs). rewrite Hs in *.
    rewrite <- IH. destruct ls; reflexivity.
Qed.

Lemma first_found_skip document before :
  forall rest,
  (forall s, In s before -> document s = []) ->
  first_found document (before ++ rest) = first_found document rest.
Proof.
  induction before as [|s before IH]; intros rest Hall; simpl; auto.
  rewrite (Hall s) by (now left). apply IH. intros; apply Hall; now right.
Qed.

Lemma first_found_here document s rest :
  document s <> [] -> first_found document (s :: rest) = Some (document s).
Proof. simpl. destruct (document s); congruence. Qed.

Lemma first_found_in document sels :
  forall elements,
  first_found document sels = Some elements ->
  elements <> [] /\ exists s, In s sels /\ document s = elements.
Proof.
  induction sels as [|s sels IH]; simpl; intros elements; [discriminate|].
  destruct (document s) as [|e es] eqn:E.
  - intros H. destruct (IH _ H) as (Hne & s' & Hin & Hs). eauto 6.
  - intros [= <-]. split; [discriminate|]. eauto.
Qed.

(** X13: the selectors are tried in their order and the first that finds
    any element decides: the text is the [textContent] of its elements
    joined by line feeds, whatever the later selectors and the paragraphs
    would find.  The paragraphs of [main] are read only when none of the six
    selectors finds an element. *)
Theorem X13_first_selector_decides (document : Document) :
  (forall i selector,
     nth_error selectors i = Some selector ->
     document selector <> [] ->
     (forall j earlier,
        j < i -> nth_error selectors j = Some earlier ->
        document earlier = []) ->
     extractText document = join_nl (document selector)) /\
  ((forall selector, In selector selectors -> document selector = []) ->
   extractText document = join_nl (document paragraphs)).
Proof.
  split.
  - intros i selector Hnth Hne Hearlier.
    destruct (nth_error_split _ _ Hnth) as (before & rest & Hsel & Hlen).
    unfold extractText. rewrite Hsel.
    rewrite first_found_skip, first_found_here; auto.
    intros s Hin. destruct (In_nth_error _ _ Hin) as (j & Hj).
    apply (Hearlier j).
    + rewrite <- Hlen. apply nth_error_Some. congruence.
    + rewrite Hsel, nth_error_app1; auto.
      apply nth_error_Some. congruence.
  - intros Hall. unfold extractText.
    rewrite <- (app_nil_r selectors).
    rewrite first_found_skip; auto.
Qed.

(** X13 at work: a page whose second selector is the first to find
    elements, and a page on which nothing is found. *)
Lemma X13_first_selector_decides_witness :
  extractText MoreSamples.page_prose =
    lit "XYZ (Example Corp) ... $1.5 billion" ++ [10%N] ++
    lit "ABC is worth $0.9 billion" /\
  extractText MoreSamples.page_blank = [].
Proof.
  destruct (X13_first_selector_decides MoreSamples.page_prose) as (Hfirst & _).
  destruct (X13_first_selector_decides MoreSamples.page_blank) as (_ & Hnone).
  split.
  - rewrite (Hfirst 1 ".prose"%string).
    + reflexivity.
    + reflexivity.
    + vm_compute. discriminate.
    + intros j earlier Hj Hnth.
      assert (j = 0) by lia. subst j.
      injection Hnth as <-. reflexivity.
  - rewrite Hnone; [reflexivity|]. reflexivity.
Defined.

(** X14: the lines of the extracted text.  When a selector finds elements,
    splitting the text at line feeds gives the lines of the elements, in
    order; when no element holds a line feed it gives the elements back, so
    the line-by-line pass of the parser sees one element per line.  Joining
    the lines again gives the text. *)
Theorem X14_lines_of_the_extracted_text
    (document : Document) (elements : list str) :
  first_found document selectors = Some elements ->
  split_nl (extractText document) = flat_map split_nl elements /\
  (Forall (fun t => existsb (fun c => (c =? 10)%N) t = false) elements ->
   split_nl (extractText document) = elements) /\
  join_nl (split_nl (extractText document)) = extractText document.
Proof.
  intros Hfound. destruct (first_found_in _ _ Hfound) as (Hne & _).
  unfold extractText. rewrite Hfound.
  split; [now apply split_nl_join_nl|]. split.
  - intros Hall. rewrite split_nl_join_nl by auto. now apply flat_map_lines.
  - apply join_nl_split_nl.
Qed.

(** X14 at work on a page whose answer region holds two paragraphs. *)
Lemma X14_lines_of_the_extracted_text_witness :
  let elements := [lit "XYZ (Example Corp) ... $1.5 billion";
                   lit "ABC is worth $0.9 billion"] in
  first_found MoreSamples.page_prose selectors = Some elements /\
  split_nl (extractText MoreSamples.page_prose) = elements.
Proof.
  intros elements.
  assert (H : first_found MoreSamples.page_prose selectors = Some elements)
    by (vm_compute; reflexivity).
  split; [exact H|].
  destruct (@X14_lines_of_the_extracted_text
              MoreSamples.page_prose elements H) as (_ & Hlines & _).
  apply Hlines.
  repeat (apply Forall_cons; [vm_compute; reflexivity|]).
  apply Forall_nil.
Defined.



End PageFacts.
